(** * Request-scoped connection provider of [auctions/web_app/main.py]

    A shallow embedding of [ThreadlocalConnectionProvider], of the two
    Flask hooks [transaction_start] / [transaction_commit] installed by
    [setup_db], and of the dependency bindings made by [di_config].

    Python code that reads and writes [threading.local] attributes, calls
    into the database driver and raises exceptions is written in a small
    state-and-exception monad over a [World]: the per-thread attribute
    namespaces, the number of connection objects the engine has made, and
    the list of driver calls made so far. *)

From Stdlib Require Import ZArith List Lia.
From stdpp Require Import gmap strings.

Open Scope string_scope.
Open Scope list_scope.

(** ** Data *)

(** A thread identity, the key [threading.local] dispatches on. *)
Definition ThreadId := nat.

(** A [sqlalchemy.engine.Connection] object, by identity: the engine
    numbers the objects it hands out. *)
Definition Connection := nat.

(** [Session(bind=connection)]: the unit of work bound to a connection.
    Making one is a plain object construction; it calls nothing on the
    driver and does not raise. *)
Record Session := mkSession { bind : Connection }.

(** The handle [connection.begin()] returns, stored as [request.tx]. *)
Record Transaction := mkTransaction { tx_connection : Connection }.

(** The exceptions the code raises, catches, or lets through. *)
Inductive exn :=
| AttributeError
| AssertionError
| Exception (msg : string)
| DriverError (code : nat)
| UnboundCapability.

(** Calls made into the driver, oldest first. [EvRollback] is part of the
    driver's interface; no function of this file makes that call. *)
Inductive Event :=
| EvConnect
| EvClose (c : Connection)
| EvBegin (c : Connection)
| EvCommit (t : Transaction)
| EvRollback (t : Transaction).

(** The engine and the objects it produces are external: whether a call
    raises is decided by the driver, as a function of the calls made
    before it. [None] means the call returns normally. *)
Record Engine := mkEngine {
  connect_raises : list Event -> option exn;
  close_raises : Connection -> list Event -> option exn;
  begin_raises : Connection -> list Event -> option exn;
  commit_raises : Transaction -> list Event -> option exn
}.

(** The attribute namespace one thread sees through [self._storage]. *)
Record Local := mkLocal {
  connection : option Connection;
  session : option Session
}.

Definition empty_local : Local := mkLocal None None.

Record World := mkWorld {
  storage : gmap ThreadId Local;
  created : nat;
  calls : list Event
}.

Definition initial_world : World := mkWorld ∅ 0 [].

(** Flask's [request], as far as the hooks use it: the [tx] attribute is
    absent until [transaction_start] sets it. *)
Record Request := mkRequest { tx : option Transaction }.

(** The response handed to [transaction_commit]. *)
Record Response := mkResponse { status_code : Z }.

(** ** Results and the monad *)

Inductive Result (A : Type) :=
| Return (a : A)
| Raise (e : exn).

Arguments Return {A} a.
Arguments Raise {A} e.

Definition M (A : Type) : Type := World -> Result A * World.

Definition ret {A} (a : A) : M A := fun w => (Return a, w).

Definition raise {A} (e : exn) : M A := fun w => (Raise e, w).

Definition bind_M {A B} (m : M A) (k : A -> M B) : M B := fun w =>
  match m w with
  | (Return a, w') => k a w'
  | (Raise e, w') => (Raise e, w')
  end.

Declare Scope py_scope.
Delimit Scope py_scope with py.
Notation "x <- m ;; k" := (bind_M m (fun x => k))
  (at level 100, m at next level, right associativity) : py_scope.
Notation "m ;; k" := (bind_M m (fun _ => k))
  (at level 100, right associativity) : py_scope.
Open Scope py_scope.

(** [try: body except AttributeError: handler]. Only [AttributeError] is
    caught; every other exception goes through. *)
Definition try_except_AttributeError {A} (body handler : M A) : M A := fun w =>
  match body w with
  | (Raise AttributeError, w') => handler w'
  | r => r
  end.

(** [try: body finally: fin]. [fin] runs whatever [body] did; when [fin]
    itself raises, its exception is the one that leaves the statement. *)
Definition try_finally {A} (body : M A) (fin : M unit) : M A := fun w =>
  match body w with
  | (r, w1) =>
      match fin w1 with
      | (Return _, w2) => (r, w2)
      | (Raise e, w2) => (Raise e, w2)
      end
  end.

(** [assert cond], as the interpreter runs it by default: a false
    condition raises [AssertionError]. *)
Definition assert_ (cond : bool) : M unit :=
  if cond then ret tt else raise AssertionError.

(** ** Attribute access on [self._storage] *)

Definition local_of (w : World) (tid : ThreadId) : Local :=
  default empty_local (storage w !! tid).

Definition set_local (tid : ThreadId) (l : Local) (w : World) : World :=
  mkWorld (<[tid := l]> (storage w)) (created w) (calls w).

Definition hasattr_connection (tid : ThreadId) : M bool := fun w =>
  (Return (bool_decide (is_Some (connection (local_of w tid)))), w).

Definition getattr_connection (tid : ThreadId) : M Connection := fun w =>
  match connection (local_of w tid) with
  | Some c => (Return c, w)
  | None => (Raise AttributeError, w)
  end.

Definition getattr_session (tid : ThreadId) : M Session := fun w =>
  match session (local_of w tid) with
  | Some s => (Return s, w)
  | None => (Raise AttributeError, w)
  end.

Definition setattr_connection (tid : ThreadId) (c : Connection) : M unit := fun w =>
  (Return tt, set_local tid (mkLocal (Some c) (session (local_of w tid))) w).

Definition setattr_session (tid : ThreadId) (s : Session) : M unit := fun w =>
  (Return tt, set_local tid (mkLocal (connection (local_of w tid)) (Some s)) w).

Definition delattr_connection (tid : ThreadId) : M unit := fun w =>
  match connection (local_of w tid) with
  | Some _ => (Return tt, set_local tid (mkLocal None (session (local_of w tid))) w)
  | None => (Raise AttributeError, w)
  end.

Definition delattr_session (tid : ThreadId) : M unit := fun w =>
  match session (local_of w tid) with
  | Some _ => (Return tt, set_local tid (mkLocal (connection (local_of w tid)) None) w)
  | None => (Raise AttributeError, w)
  end.

(** ** Driver calls *)

Definition record_call (ev : Event) (w : World) : World :=
  mkWorld (storage w) (created w) (calls w ++ [ev]).

Definition driver_call (ev : Event) (outcome : option exn) : M unit := fun w =>
  match outcome with
  | None => (Return tt, record_call ev w)
  | Some e => (Raise e, record_call ev w)
  end.

Section Provider.

Variable engine : Engine.

(** [self._engine.connect()]: a new connection object, or the driver's
    exception. *)
Definition engine_connect : M Connection := fun w =>
  match connect_raises engine (calls w) with
  | None =>
      (Return (created w),
       mkWorld (storage w) (S (created w)) (calls w ++ [EvConnect]))
  | Some e => (Raise e, record_call EvConnect w)
  end.

(** [connection.close()]. *)
Definition connection_close (c : Connection) : M unit := fun w =>
  driver_call (EvClose c) (close_raises engine c (calls w)) w.

(** [connection.begin()]. *)
Definition connection_begin (c : Connection) : M Transaction := fun w =>
  (driver_call (EvBegin c) (begin_raises engine c (calls w)) ;;
   ret (mkTransaction c)) w.

(** [tx.commit()]. *)
Definition transaction_do_commit (t : Transaction) : M unit := fun w =>
  driver_call (EvCommit t) (commit_raises engine t (calls w)) w.

(** ** [ThreadlocalConnectionProvider] *)

(** [__call__]. *)
Definition call (tid : ThreadId) : M Connection :=
  try_except_AttributeError
    (getattr_connection tid)
    (raise (Exception "No connection available")).

(** The [connected] property. *)
Definition connected (tid : ThreadId) : M bool :=
  hasattr_connection tid.

Definition provide_session (tid : ThreadId) : M Session :=
  is_connected <- connected tid ;;
  (if negb is_connected
   then raise (Exception "No connection available")
   else ret tt) ;;
  getattr_session tid.

Definition open (tid : ThreadId) : M Connection :=
  present <- hasattr_connection tid ;;
  assert_ (negb present) ;;
  connection <- engine_connect ;;
  setattr_connection tid connection ;;
  setattr_session tid (mkSession connection) ;;
  ret connection.

Definition close_if_present (tid : ThreadId) : M unit :=
  try_except_AttributeError
    (c <- getattr_connection tid ;;
     connection_close c ;;
     delattr_connection tid ;;
     delattr_session tid)
    (ret tt).

(** ** The hooks [setup_db] installs *)

(** [transaction_start], the [before_request] hook:
    [request.tx = connection_provider.open().begin()]. The request
    object comes back with its [tx] attribute set. *)
Definition transaction_start (tid : ThreadId) (request : Request) : M Request :=
  c <- open tid ;;
  t <- connection_begin c ;;
  ret (mkRequest (Some t)).

(** The body of the [try] in [transaction_commit]. *)
Definition commit_step (request : Request) (response : Response) : M unit :=
  if bool_decide (is_Some (tx request)) && (status_code response <? 400)%Z
  then match tx request with
       | Some t => transaction_do_commit t
       | None => raise AttributeError
       end
  else ret tt.

(** [transaction_commit], the [after_request] hook. *)
Definition transaction_commit (tid : ThreadId) (request : Request)
    (response : Response) : M Response :=
  try_finally (commit_step request response) (close_if_present tid) ;;
  ret response.

(** ** Sequences of calls, from any threads *)

Inductive Op :=
| OpCall
| OpProvideSession
| OpConnected
| OpOpen
| OpCloseIfPresent
| OpTransactionStart (request : Request)
| OpTransactionCommit (request : Request) (response : Response).

Definition step (w : World) (call_ : ThreadId * Op) : World :=
  match call_ with
  | (tid, OpCall) => snd (call tid w)
  | (tid, OpProvideSession) => snd (provide_session tid w)
  | (tid, OpConnected) => snd (connected tid w)
  | (tid, OpOpen) => snd (open tid w)
  | (tid, OpCloseIfPresent) => snd (close_if_present tid w)
  | (tid, OpTransactionStart request) => snd (transaction_start tid request w)
  | (tid, OpTransactionCommit request response) =>
      snd (transaction_commit tid request response w)
  end.

Definition run_ops (ops : list (ThreadId * Op)) (w : World) : World :=
  fold_left step ops w.

End Provider.

(** ** The dependency registry *)

(** What a capability resolves to. *)
Inductive Value :=
| VConnection (c : Connection)
| VSession (s : Session)
| VInstance (class_name : string).

(** Modelled from the spec: the registry is the [inject] package, which is
    not part of this repository's sources; only the calls [di_config]
    makes on it are. An entry is a singleton instance or a provider
    function evaluated at each resolution (spec section 4.3). The provider
    runs in the calling thread, which the model passes explicitly. *)
Inductive Entry :=
| singleton (value : Value)
| provider (f : ThreadId -> M Value).

(** Modelled from the spec: [register(capabilityId, kind, value)] inserts
    or overwrites the entry for [capabilityId]; there is no uniqueness
    failure. *)
Definition register (capabilityId : string) (entry : Entry)
    (registry : gmap string Entry) : gmap string Entry :=
  <[capabilityId := entry]> registry.

(** Modelled from the spec: [resolve(capabilityId)] fails with
    [UnboundCapability] if no entry exists, returns the stored value of a
    singleton entry, and invokes the stored function of a provider entry
    and returns its result. *)
Definition resolve (capabilityId : string) (registry : gmap string Entry)
    (tid : ThreadId) : M Value :=
  match registry !! capabilityId with
  | None => raise UnboundCapability
  | Some (singleton value) => ret value
  | Some (provider f) => f tid
  end.

(** [binder.bind_to_provider(cls, f)] and [binder.bind(cls, instance)], in
    the spec's terms. *)
Definition bind_to_provider (cls : string) (f : ThreadId -> M Value)
    (registry : gmap string Entry) : gmap string Entry :=
  register cls (provider f) registry.

Definition bind_instance (cls : string) (instance : Value)
    (registry : gmap string Entry) : gmap string Entry :=
  register cls (singleton instance) registry.

(** [di_config], from [setup_dependency_injection]: the seven bindings in
    source order. The repository and query classes are bound as providers
    that construct an instance. *)
Definition di_config (binder : gmap string Entry) : gmap string Entry :=
  let b1 := bind_to_provider "Connection"
              (fun tid => c <- call tid ;; ret (VConnection c)) binder in
  let b2 := bind_to_provider "Session"
              (fun tid => s <- provide_session tid ;; ret (VSession s)) b1 in
  let b3 := bind_to_provider "AuctionsRepository"
              (fun _ => ret (VInstance "SqlAlchemyAuctionsRepo")) b2 in
  let b4 := bind_to_provider "GetActiveAuctions"
              (fun _ => ret (VInstance "SqlGetActiveAuctions")) b3 in
  let b5 := bind_to_provider "GetSingleAuction"
              (fun _ => ret (VInstance "SqlGetSingleAuction")) b4 in
  let b6 := bind_instance "EventBus" (VInstance "EventBus") b5 in
  bind_instance "PaymentProvider" (VInstance "CaPaymentsPaymentProvider") b6.

(** [inject.configure(di_config)]: the registry the process runs with. *)
Definition configure (config : gmap string Entry -> gmap string Entry)
    : gmap string Entry :=
  config ∅.

(** ** Worlds the methods leave, and what holds of them *)

(** The world [open] leaves when the engine hands out a connection. *)
Definition opened (tid : ThreadId) (w : World) : World :=
  set_local tid
    (mkLocal (Some (created w)) (Some (mkSession (created w))))
    (mkWorld (storage w) (S (created w)) (calls w ++ [EvConnect])).

(** The world [close_if_present] leaves when [close()] returned normally. *)
Definition closed (tid : ThreadId) (c : Connection) (w : World) : World :=
  set_local tid empty_local (record_call (EvClose c) w).

(** Every method and hook, run by thread [tid], leaves the namespaces as
    they were, or empties the caller's own, or binds a connection the
    engine has just made, with its session, in the caller's own. *)
Inductive storage_effect (tid : ThreadId) (w w' : World) : Prop :=
| eff_keep :
    storage w' = storage w -> created w' = created w ->
    storage_effect tid w w'
| eff_unbind :
    storage w' = <[tid := empty_local]> (storage w) ->
    created w' = created w ->
    storage_effect tid w w'
| eff_bind :
    connection (local_of w tid) = None ->
    storage w' =
      <[tid := mkLocal (Some (created w)) (Some (mkSession (created w)))]>
        (storage w) ->
    created w' = S (created w) ->
    storage_effect tid w w'.

(** A namespace is well formed when both attributes are absent, or both
    are present and the session is the one bound to the connection. *)
Definition bound_ok (l : Local) : bool :=
  match connection l, session l with
  | None, None => true
  | Some c, Some s => Nat.eqb (bind s) c
  | _, _ => false
  end.

Definition storage_inv (w : World) : Prop :=
  forall tid, bound_ok (local_of w tid) = true.

(** Every stored connection is one the engine has made. *)
Definition created_inv (w : World) : Prop :=
  forall tid c, connection (local_of w tid) = Some c -> c < created w.

(** No connection is stored by two threads. *)
Definition private_inv (w : World) : Prop :=
  forall tid1 tid2 c,
    connection (local_of w tid1) = Some c ->
    connection (local_of w tid2) = Some c ->
    tid1 = tid2.

(** ** Reading the list of driver calls *)

Definition commit_calls (l : list Event) : list Transaction :=
  flat_map (fun ev => match ev with EvCommit t => [t] | _ => [] end) l.

Definition rollback_calls (l : list Event) : list Transaction :=
  flat_map (fun ev => match ev with EvRollback t => [t] | _ => [] end) l.

(** The calls made between world [w] and a later world [w']. *)
Definition new_calls (w w' : World) : list Event :=
  drop (length (calls w)) (calls w').

(** Whether the [close()] that [close_if_present] would make in [w]
    returns normally; true when there is nothing to close. *)
Definition close_returns (engine : Engine) (tid : ThreadId) (w : World) : bool :=
  match connection (local_of w tid) with
  | Some c =>
      match close_raises engine c (calls w) with None => true | Some _ => false end
  | None => true
  end.

(** Whether the next [engine.connect()] returns a connection. *)
Definition connect_returns (engine : Engine) (w : World) : bool :=
  match connect_raises engine (calls w) with None => true | Some _ => false end.

(** ** Sequences of registrations *)

Definition register_all (registrations : list (string * Entry))
    (registry : gmap string Entry) : gmap string Entry :=
  fold_left (fun reg ke => register (fst ke) (snd ke) reg) registrations registry.

(** The entry of the last registration for [capabilityId] in a list. *)
Fixpoint last_registered (capabilityId : string)
    (registrations : list (string * Entry)) : option Entry :=
  match registrations with
  | [] => None
  | (k, e) :: rest =>
      match last_registered capabilityId rest with
      | Some e' => Some e'
      | None => if decide (k = capabilityId) then Some e else None
      end
  end.

(** What resolving an entry gives. *)
Definition entry_value (entry : Entry) (tid : ThreadId) : M Value :=
  match entry with
  | singleton value => ret value
  | provider f => f tid
  end.

(** ** Some engines *)

(** Every driver call returns normally. *)
Definition reliable_engine : Engine :=
  mkEngine (fun _ => None) (fun _ _ => None) (fun _ _ => None) (fun _ _ => None).

(** [close()] always raises [e]. *)
Definition failing_close_engine (e : exn) : Engine :=
  mkEngine (fun _ => None) (fun _ _ => Some e) (fun _ _ => None) (fun _ _ => None).

(** [commit()] raises [DriverError 1] and [close()] raises [DriverError 2],
    as when the database has gone away. *)
Definition lost_database_engine : Engine :=
  mkEngine (fun _ => None) (fun _ _ => Some (DriverError 2))
           (fun _ _ => None) (fun _ _ => Some (DriverError 1)).

Definition is_connect (ev : Event) : bool :=
  match ev with EvConnect => true | _ => false end.

Definition is_close (ev : Event) : bool :=
  match ev with EvClose _ => true | _ => false end.

(** [connect()] returns a connection once and raises [DriverError 3]
    from then on. *)
Definition single_connection_engine : Engine :=
  mkEngine (fun log => if existsb is_connect log then Some (DriverError 3) else None)
           (fun _ _ => None) (fun _ _ => None) (fun _ _ => None).

(** The first [close()] raises [DriverError 2]; later ones return. *)
Definition close_fails_once_engine : Engine :=
  mkEngine (fun _ => None)
           (fun _ log => if existsb is_close log then None else Some (DriverError 2))
           (fun _ _ => None) (fun _ _ => None).

(** ** Calls a step makes, and connections accounted for *)

(** The driver calls one call of a method or hook makes, oldest first,
    read off the world it starts in. *)
Definition step_calls (engine : Engine) (w : World) (tid : ThreadId) (op : Op)
    : list Event :=
  let connect_calls :=
    match connection (local_of w tid) with
    | Some _ => []
    | None => [EvConnect]
    end in
  let close_calls :=
    match connection (local_of w tid) with
    | Some c => [EvClose c]
    | None => []
    end in
  match op with
  | OpCall | OpProvideSession | OpConnected => []
  | OpOpen => connect_calls
  | OpCloseIfPresent => close_calls
  | OpTransactionStart _ =>
      connect_calls ++
      match connection (local_of w tid), connect_raises engine (calls w) with
      | None, None => [EvBegin (created w)]
      | _, _ => []
      end
  | OpTransactionCommit request response =>
      match tx request with
      | Some t => if (status_code response <? 400)%Z then [EvCommit t] else []
      | None => []
      end ++ close_calls
  end.

(** Every connection the engine has made is still bound by some thread,
    or has had [close()] called on it. *)
Definition accounted_inv (w : World) : Prop :=
  forall c, c < created w ->
    (exists tid, connection (local_of w tid) = Some c) \/ In (EvClose c) (calls w).

(** [begin()] always raises [e]. *)
Definition failing_begin_engine (e : exn) : Engine :=
  mkEngine (fun _ => None) (fun _ _ => None) (fun _ _ => Some e) (fun _ _ => None).

(** [connect()] always raises [e]. *)
Definition failing_connect_engine (e : exn) : Engine :=
  mkEngine (fun _ => Some e) (fun _ _ => None) (fun _ _ => None) (fun _ _ => None).

(** ** [setup] and [setup_dependency_injection]: reading the settings *)

(** What building a configuration value gives: the value, or the
    [KeyError] of a missing key, or the [ValueError] of [int()]. *)
Inductive SetupResult (A : Type) :=
| SetupOk (a : A)
| KeyError (key : string)
| ValueError (text : string).

Arguments SetupOk {A} a.
Arguments KeyError {A} key.
Arguments ValueError {A} text.

Definition setup_bind {A B} (m : SetupResult A) (k : A -> SetupResult B)
    : SetupResult B :=
  match m with
  | SetupOk a => k a
  | KeyError key => KeyError key
  | ValueError text => ValueError text
  end.

Declare Scope setup_scope.
Delimit Scope setup_scope with setup.
Notation "x <~ m ;; k" := (setup_bind m (fun x => k))
  (at level 100, m at next level, right associativity) : setup_scope.

(** [d[key]] on [os.environ] or on a [dict] of strings. *)
Definition getitem (d : gmap string string) (key : string) : SetupResult string :=
  match d !! key with
  | Some v => SetupOk v
  | None => KeyError key
  end.

(** The [settings] dictionary [setup] builds from [os.environ], the
    values read in the order the literal lists them. *)
Definition setup_settings (environ : gmap string string)
    : SetupResult (gmap string string) :=
  (payments_login <~ getitem environ "PAYMENTS_LOGIN" ;;
   payments_password <~ getitem environ "PAYMENTS_PASSWORD" ;;
   email_host <~ getitem environ "EMAIL_HOST" ;;
   email_port <~ getitem environ "EMAIL_PORT" ;;
   email_username <~ getitem environ "EMAIL_USERNAME" ;;
   email_password <~ getitem environ "EMAIL_PASSWORD" ;;
   email_from_name <~ getitem environ "EMAIL_FROM_NAME" ;;
   email_from_address <~ getitem environ "EMAIL_FROM_ADDRESS" ;;
   SetupOk (<["payments.login" := payments_login]>
           (<["payments.password" := payments_password]>
           (<["email.host" := email_host]>
           (<["email.port" := email_port]>
           (<["email.username" := email_username]>
           (<["email.password" := email_password]>
           (<["email.from.name" := email_from_name]>
           (<["email.from.address" := email_from_address]> ∅)))))))))%setup.

(** The environment variables [setup] reads, in the order it reads them. *)
Definition required_variables : list string :=
  ["PAYMENTS_LOGIN"; "PAYMENTS_PASSWORD"; "EMAIL_HOST"; "EMAIL_PORT";
   "EMAIL_USERNAME"; "EMAIL_PASSWORD"; "EMAIL_FROM_NAME"; "EMAIL_FROM_ADDRESS"].

(** The first of them that [environ] does not define. *)
Definition first_missing (environ : gmap string string) : option string :=
  find (fun name => match environ !! name with Some _ => false | None => true end)
       required_variables.

Record CustomerRelationshipConfig := mkCustomerRelationshipConfig {
  cr_email_host : string;
  cr_email_port : Z;
  cr_email_username : string;
  cr_email_password : string;
  cr_email_from : string * string
}.

Record CaPaymentsPaymentProvider := mkCaPaymentsPaymentProvider {
  ca_login : string;
  ca_password : string
}.

(** [cr_config], the first statement of [setup_dependency_injection].
    [py_int] stands for Python's [int()] on a string: the number, or
    [None] where [int()] raises [ValueError]. The keyword arguments are
    evaluated in the order they are written. *)
Definition cr_config (py_int : string -> option Z) (settings : gmap string string)
    : SetupResult CustomerRelationshipConfig :=
  (email_host <~ getitem settings "email.host" ;;
   email_port_text <~ getitem settings "email.port" ;;
   email_port <~ match py_int email_port_text with
                 | Some n => SetupOk n
                 | None => ValueError email_port_text
                 end ;;
   email_username <~ getitem settings "email.username" ;;
   email_password <~ getitem settings "email.password" ;;
   email_from_name <~ getitem settings "email.from.name" ;;
   email_from_address <~ getitem settings "email.from.address" ;;
   SetupOk (mkCustomerRelationshipConfig email_host email_port email_username
              email_password (email_from_name, email_from_address)))%setup.

(** The [CaPaymentsPaymentProvider(...)] instance [di_config] binds. *)
Definition payment_provider (settings : gmap string string)
    : SetupResult CaPaymentsPaymentProvider :=
  (login <~ getitem settings "payments.login" ;;
   password <~ getitem settings "payments.password" ;;
   SetupOk (mkCaPaymentsPaymentProvider login password))%setup.

(** What [setup_dependency_injection] makes out of [settings], in the
    order it reads them: the configuration handed to
    [CustomerRelationshipFacade], then the payment provider bound in
    [di_config]. The facade's constructor and [inject.configure] are
    calls into other packages; what they do is not part of this
    definition. *)
Definition setup_dependency_injection (py_int : string -> option Z)
    (settings : gmap string string)
    : SetupResult (CustomerRelationshipConfig * CaPaymentsPaymentProvider) :=
  (config <~ cr_config py_int settings ;;
   payments <~ payment_provider settings ;;
   SetupOk (config, payments))%setup.

(** An [int()] that reads the one port number the examples use. *)
Definition example_int (text : string) : option Z :=
  if String.eqb text "587" then Some 587%Z else None.

Definition example_environ : gmap string string :=
  <["PAYMENTS_LOGIN" := "shop"]>
  (<["PAYMENTS_PASSWORD" := "secret"]>
  (<["EMAIL_HOST" := "smtp.example.org"]>
  (<["EMAIL_PORT" := "587"]>
  (<["EMAIL_USERNAME" := "mailer"]>
  (<["EMAIL_PASSWORD" := "hunter2"]>
  (<["EMAIL_FROM_NAME" := "Auctions"]>
  (<["EMAIL_FROM_ADDRESS" := "auctions@example.org"]> ∅))))))).

(** * Properties *)

(** ** The per-thread namespaces *)

Lemma local_of_set_local_eq (tid : ThreadId) (l : Local) (w : World) :
  local_of (set_local tid l w) tid = l.
Proof. unfold local_of, set_local; simpl. by rewrite lookup_insert_eq. Qed.

Lemma local_of_set_local_ne (tid tid' : ThreadId) (l : Local) (w : World) :
  tid ≠ tid' -> local_of (set_local tid l w) tid' = local_of w tid'.
Proof. intros Hne. unfold local_of, set_local; simpl. by rewrite lookup_insert_ne. Qed.

Lemma set_local_twice (tid : ThreadId) (l l' : Local) (w : World) :
  set_local tid l' (set_local tid l w) = set_local tid l' w.
Proof. unfold set_local; simpl. by rewrite insert_insert_eq. Qed.

Lemma local_of_record_call (ev : Event) (w : World) (tid : ThreadId) :
  local_of (record_call ev w) tid = local_of w tid.
Proof. reflexivity. Qed.

Section ProviderFacts.

Variable engine : Engine.

(** *** What each method does, case by case *)

Lemma call_bound tid w c :
  connection (local_of w tid) = Some c ->
  call tid w = (Return c, w).
Proof.
  intros Hc. unfold call, try_except_AttributeError, getattr_connection.
  by rewrite Hc.
Qed.

Lemma call_unbound tid w :
  connection (local_of w tid) = None ->
  call tid w = (Raise (Exception "No connection available"), w).
Proof.
  intros Hc. unfold call, try_except_AttributeError, getattr_connection.
  by rewrite Hc.
Qed.

Lemma provide_session_bound tid w c s :
  connection (local_of w tid) = Some c ->
  session (local_of w tid) = Some s ->
  provide_session tid w = (Return s, w).
Proof.
  intros Hc Hs.
  unfold provide_session, connected, hasattr_connection, bind_M, getattr_session.
  rewrite Hc; simpl. rewrite Hs. reflexivity.
Qed.

Lemma provide_session_unbound tid w :
  connection (local_of w tid) = None ->
  provide_session tid w = (Raise (Exception "No connection available"), w).
Proof.
  intros Hc.
  unfold provide_session, connected, hasattr_connection, bind_M.
  rewrite Hc. reflexivity.
Qed.

Lemma open_bound tid w c :
  connection (local_of w tid) = Some c ->
  open engine tid w = (Raise AssertionError, w).
Proof.
  intros Hc. unfold open, hasattr_connection, bind_M.
  rewrite Hc. reflexivity.
Qed.

Lemma open_connect_raises tid w e :
  connection (local_of w tid) = None ->
  connect_raises engine (calls w) = Some e ->
  open engine tid w = (Raise e, record_call EvConnect w).
Proof.
  intros Hc He. unfold open, hasattr_connection, bind_M, engine_connect.
  rewrite Hc; simpl. rewrite He. reflexivity.
Qed.

Lemma open_unbound tid w :
  connection (local_of w tid) = None ->
  connect_raises engine (calls w) = None ->
  open engine tid w = (Return (created w), opened tid w).
Proof.
  intros Hc He.
  unfold open, hasattr_connection, bind_M, engine_connect.
  rewrite Hc; simpl. rewrite He.
  unfold setattr_connection, setattr_session, ret, opened.
  rewrite local_of_set_local_eq, set_local_twice. reflexivity.
Qed.

Lemma close_if_present_unbound tid w :
  connection (local_of w tid) = None ->
  close_if_present engine tid w = (Return tt, w).
Proof.
  intros Hc.
  unfold close_if_present, try_except_AttributeError, bind_M, getattr_connection.
  by rewrite Hc.
Qed.

Lemma close_if_present_close_raises tid w c e :
  connection (local_of w tid) = Some c ->
  close_raises engine c (calls w) = Some e ->
  close_if_present engine tid w =
    (match e with AttributeError => Return tt | _ => Raise e end,
     record_call (EvClose c) w).
Proof.
  intros Hc He.
  unfold close_if_present, try_except_AttributeError, bind_M, getattr_connection.
  rewrite Hc. unfold connection_close, driver_call. rewrite He.
  by destruct e.
Qed.

Lemma close_if_present_bound tid w c :
  connection (local_of w tid) = Some c ->
  close_raises engine c (calls w) = None ->
  close_if_present engine tid w = (Return tt, closed tid c w).
Proof.
  intros Hc He.
  unfold close_if_present, try_except_AttributeError, bind_M, getattr_connection.
  rewrite Hc. unfold connection_close, driver_call. rewrite He.
  unfold delattr_connection. rewrite local_of_record_call, Hc.
  unfold delattr_session. rewrite local_of_set_local_eq; simpl.
  destruct (session (local_of w tid)) as [s|]; [|reflexivity].
  rewrite set_local_twice. reflexivity.
Qed.

Lemma commit_step_skipped request response w :
  bool_decide (is_Some (tx request)) && (status_code response <? 400)%Z = false ->
  commit_step engine request response w = (Return tt, w).
Proof. intros Hcond. unfold commit_step. by rewrite Hcond. Qed.

Lemma commit_step_attempted request response w t :
  tx request = Some t ->
  (status_code response <? 400)%Z = true ->
  commit_step engine request response w =
    (match commit_raises engine t (calls w) with
     | None => Return tt
     | Some e => Raise e
     end, record_call (EvCommit t) w).
Proof.
  intros Ht Hs. unfold commit_step. rewrite Ht, Hs; simpl.
  unfold transaction_do_commit, driver_call.
  by destruct (commit_raises engine t (calls w)).
Qed.

(** [transaction_commit] is its [try] body followed by
    [close_if_present], whatever the body did. *)
Lemma transaction_commit_unfold tid request response w :
  transaction_commit engine tid request response w =
    let (r1, w1) := commit_step engine request response w in
    let (r2, w2) := close_if_present engine tid w1 in
    (match r2, r1 with
     | Raise e, _ => Raise e
     | Return _, Raise e => Raise e
     | Return _, Return _ => Return response
     end, w2).
Proof.
  unfold transaction_commit, bind_M, try_finally.
  destruct (commit_step engine request response w) as [r1 w1].
  destruct (close_if_present engine tid w1) as [[[]|e2] w2]; [|reflexivity].
  by destruct r1 as [[]|e1].
Qed.

End ProviderFacts.

Section Effects.

Variable engine : Engine.

Lemma open_effect tid w : storage_effect tid w (snd (open engine tid w)).
Proof.
  destruct (connection (local_of w tid)) as [c|] eqn:Hc.
  - rewrite (open_bound engine tid w c Hc). by apply eff_keep.
  - destruct (connect_raises engine (calls w)) as [e|] eqn:He.
    + rewrite (open_connect_raises engine tid w e Hc He). by apply eff_keep.
    + rewrite (open_unbound engine tid w Hc He). by apply eff_bind.
Qed.

Lemma close_if_present_effect tid w :
  storage_effect tid w (snd (close_if_present engine tid w)).
Proof.
  destruct (connection (local_of w tid)) as [c|] eqn:Hc.
  - destruct (close_raises engine c (calls w)) as [e|] eqn:He.
    + rewrite (close_if_present_close_raises engine tid w c e Hc He).
      by apply eff_keep.
    + rewrite (close_if_present_bound engine tid w c Hc He).
      by apply eff_unbind.
  - rewrite (close_if_present_unbound engine tid w Hc). by apply eff_keep.
Qed.

Lemma call_world tid w : snd (call tid w) = w.
Proof.
  destruct (connection (local_of w tid)) as [c|] eqn:Hc.
  - by rewrite (call_bound tid w c Hc).
  - by rewrite (call_unbound tid w Hc).
Qed.

Lemma provide_session_world tid w : snd (provide_session tid w) = w.
Proof.
  unfold provide_session, connected, hasattr_connection, bind_M, getattr_session.
  destruct (connection (local_of w tid)); simpl; [|reflexivity].
  by destruct (session (local_of w tid)).
Qed.

Lemma transaction_start_effect tid request w :
  storage_effect tid w (snd (transaction_start engine tid request w)).
Proof.
  pose proof (open_effect tid w) as Ho.
  unfold transaction_start, bind_M.
  destruct (open engine tid w) as [[c|e] w1]; simpl in *; [|exact Ho].
  unfold connection_begin, bind_M, driver_call.
  destruct (begin_raises engine c (calls w1)); simpl;
    (destruct Ho as [Hs Hn|Hs Hn|Hc Hs Hn];
     [by apply eff_keep | by apply eff_unbind | by apply eff_bind]).
Qed.

Lemma commit_step_world request response w :
  storage (snd (commit_step engine request response w)) = storage w /\
  created (snd (commit_step engine request response w)) = created w.
Proof.
  unfold commit_step.
  destruct (bool_decide (is_Some (tx request)) && (status_code response <? 400)%Z);
    [|done].
  destruct (tx request) as [t|]; [|done].
  unfold transaction_do_commit, driver_call.
  by destruct (commit_raises engine t (calls w)).
Qed.

Lemma transaction_commit_effect tid request response w :
  storage_effect tid w (snd (transaction_commit engine tid request response w)).
Proof.
  rewrite transaction_commit_unfold.
  pose proof (commit_step_world request response w) as [Hs Hn].
  destruct (commit_step engine request response w) as [r1 w1]; simpl in *.
  pose proof (close_if_present_effect tid w1) as Hc.
  destruct (close_if_present engine tid w1) as [r2 w2]; simpl in *.
  assert (Hl : local_of w1 tid = local_of w tid)
    by (unfold local_of; by rewrite Hs).
  destruct Hc as [Hs2 Hn2|Hs2 Hn2|Hc2 Hs2 Hn2].
  - apply eff_keep; congruence.
  - apply eff_unbind; congruence.
  - apply eff_bind; congruence.
Qed.

(** The one lemma the invariants below rest on. *)
Lemma step_effect w tid op : storage_effect tid w (step engine w (tid, op)).
Proof.
  destruct op; simpl.
  - rewrite call_world. by apply eff_keep.
  - rewrite provide_session_world. by apply eff_keep.
  - by apply eff_keep.
  - apply open_effect.
  - apply close_if_present_effect.
  - apply transaction_start_effect.
  - apply transaction_commit_effect.
Qed.

End Effects.

(** ** Invariants of the namespaces *)

Lemma bound_ok_both (l : Local) :
  bound_ok l = true ->
  (connection l = None /\ session l = None) \/
  (exists c, connection l = Some c /\ session l = Some (mkSession c)).
Proof.
  destruct l as [[c|] [[b]|]]; unfold bound_ok; simpl; intros H; try discriminate.
  - right. exists c. apply Nat.eqb_eq in H. by subst.
  - by left.
Qed.

Lemma effect_local (tid : ThreadId) (w w' : World) :
  storage_effect tid w w' ->
  (forall t, t <> tid -> local_of w' t = local_of w t) /\
  (local_of w' tid = local_of w tid \/
   local_of w' tid = empty_local \/
   (connection (local_of w tid) = None /\
    local_of w' tid = mkLocal (Some (created w)) (Some (mkSession (created w))))) /\
  created w <= created w' /\
  (forall c, connection (local_of w' tid) = Some c ->
             connection (local_of w tid) = Some c \/
             (c = created w /\ created w' = S (created w))).
Proof.
  intros [Hs Hn|Hs Hn|Hc Hs Hn]; unfold local_of in *; rewrite Hs, Hn.
  - repeat split; auto.
  - repeat split; auto.
    + intros t Ht. by rewrite lookup_insert_ne.
    + rewrite lookup_insert_eq. auto.
    + rewrite lookup_insert_eq. simpl. discriminate.
  - repeat split; auto.
    + intros t Ht. by rewrite lookup_insert_ne.
    + rewrite lookup_insert_eq. auto.
    + rewrite lookup_insert_eq. simpl. intros c [= <-]. auto.
Qed.

(** A call leaves the namespaces of all other threads as they were. *)
Lemma step_other_threads (engine : Engine) (w : World) (tid t : ThreadId) (op : Op) :
  t <> tid -> local_of (step engine w (tid, op)) t = local_of w t.
Proof.
  intros Hne.
  destruct (effect_local tid w _ (step_effect engine w tid op)) as (Hother & _).
  by apply Hother.
Qed.

Lemma storage_inv_effect (tid : ThreadId) (w w' : World) :
  storage_effect tid w w' -> storage_inv w -> storage_inv w'.
Proof.
  intros Heff Hinv t.
  destruct (effect_local tid w w' Heff) as (Hother & Hown & _).
  destruct (decide (t = tid)) as [->|Hne].
  - destruct Hown as [-> | [-> | [_ ->]]];
      [apply Hinv | reflexivity | unfold bound_ok; simpl; apply Nat.eqb_refl].
  - rewrite (Hother t Hne). apply Hinv.
Qed.

Lemma created_inv_effect (tid : ThreadId) (w w' : World) :
  storage_effect tid w w' -> created_inv w -> created_inv w'.
Proof.
  intros Heff Hinv t c Hc.
  destruct (effect_local tid w w' Heff) as (Hother & _ & Hle & Hnew).
  destruct (decide (t = tid)) as [->|Hne].
  - destruct (Hnew c Hc) as [Hold | [-> Hn]].
    + specialize (Hinv tid c Hold). lia.
    + lia.
  - rewrite (Hother t Hne) in Hc. specialize (Hinv t c Hc). lia.
Qed.

Lemma private_inv_effect (tid : ThreadId) (w w' : World) :
  storage_effect tid w w' -> created_inv w -> private_inv w -> private_inv w'.
Proof.
  intros Heff Hcr Hinv t1 t2 c H1 H2.
  destruct (effect_local tid w w' Heff) as (Hother & _ & _ & Hnew).
  destruct (decide (t1 = tid)) as [->|Hne1];
    destruct (decide (t2 = tid)) as [->|Hne2]; auto.
  - rewrite (Hother t2 Hne2) in H2.
    destruct (Hnew c H1) as [Hold | [-> _]].
    + by apply (Hinv tid t2 c).
    + specialize (Hcr t2 _ H2). lia.
  - rewrite (Hother t1 Hne1) in H1.
    destruct (Hnew c H2) as [Hold | [-> _]].
    + by apply (Hinv t1 tid c).
    + specialize (Hcr t1 _ H1). lia.
  - rewrite (Hother t1 Hne1) in H1. rewrite (Hother t2 Hne2) in H2.
    by apply (Hinv t1 t2 c).
Qed.

Lemma local_of_initial (tid : ThreadId) : local_of initial_world tid = empty_local.
Proof. unfold local_of, initial_world; simpl. by rewrite lookup_empty. Qed.

(** All three hold in every world reached from the initial one by calls
    of the provider's methods and of the two hooks, from any threads in
    any order. *)
Lemma reachable_inv (engine : Engine) (ops : list (ThreadId * Op)) (w : World) :
  storage_inv w /\ created_inv w /\ private_inv w ->
  storage_inv (run_ops engine ops w) /\
  created_inv (run_ops engine ops w) /\
  private_inv (run_ops engine ops w).
Proof.
  revert w. induction ops as [|[tid op] ops IH]; intros w (Hs & Hc & Hp); [done|].
  simpl. apply IH.
  pose proof (step_effect engine w tid op) as Heff.
  split; [|split].
  - by apply (storage_inv_effect tid w).
  - by apply (created_inv_effect tid w).
  - by apply (private_inv_effect tid w).
Qed.

Lemma initial_inv :
  storage_inv initial_world /\ created_inv initial_world /\ private_inv initial_world.
Proof.
  split; [|split].
  - intros tid. by rewrite local_of_initial.
  - intros tid c. by rewrite local_of_initial.
  - intros t1 t2 c. by rewrite local_of_initial.
Qed.

(** ** [close_if_present] *)

Lemma close_if_present_created (engine : Engine) (tid : ThreadId) (w : World) :
  created (snd (close_if_present engine tid w)) = created w.
Proof.
  destruct (connection (local_of w tid)) as [c|] eqn:Hc.
  - destruct (close_raises engine c (calls w)) as [e|] eqn:He.
    + by rewrite (close_if_present_close_raises engine tid w c e Hc He).
    + by rewrite (close_if_present_bound engine tid w c Hc He).
  - by rewrite (close_if_present_unbound engine tid w Hc).
Qed.

Lemma close_if_present_calls (engine : Engine) (tid : ThreadId) (w : World) :
  calls (snd (close_if_present engine tid w)) =
    calls w ++ match connection (local_of w tid) with
               | Some c => [EvClose c]
               | None => []
               end.
Proof.
  destruct (connection (local_of w tid)) as [c|] eqn:Hc.
  - destruct (close_raises engine c (calls w)) as [e|] eqn:He.
    + by rewrite (close_if_present_close_raises engine tid w c e Hc He).
    + by rewrite (close_if_present_bound engine tid w c Hc He).
  - rewrite (close_if_present_unbound engine tid w Hc). simpl.
    by rewrite app_nil_r.
Qed.

(** C10. When a binding is present and [close()] raises an exception
    other than [AttributeError], [close_if_present] raises that exception
    and removes nothing: after the call the thread's namespace still
    holds the connection and the session it held before. The only change
    to the world is the recorded [close()] call. *)
Theorem close_if_present_close_failure_keeps_binding
    (engine : Engine) (tid : ThreadId) (w : World) (c : Connection) (e : exn) :
  connection (local_of w tid) = Some c ->
  close_raises engine c (calls w) = Some e ->
  e <> AttributeError ->
  close_if_present engine tid w = (Raise e, record_call (EvClose c) w) /\
  connection (local_of (snd (close_if_present engine tid w)) tid) = Some c /\
  session (local_of (snd (close_if_present engine tid w)) tid) =
    session (local_of w tid).
Proof.
  intros Hc He Hne.
  rewrite (close_if_present_close_raises engine tid w c e Hc He).
  destruct e; try done.
Qed.

Lemma close_if_present_close_failure_keeps_binding_witness :
  let w := snd (open (failing_close_engine (DriverError 2)) 0 initial_world) in
  connection (local_of w 0) = Some 0 /\
  close_if_present (failing_close_engine (DriverError 2)) 0 w =
    (Raise (DriverError 2), record_call (EvClose 0) w) /\
  connection
    (local_of (snd (close_if_present (failing_close_engine (DriverError 2)) 0 w)) 0)
    = Some 0 /\
  session
    (local_of (snd (close_if_present (failing_close_engine (DriverError 2)) 0 w)) 0)
    = session (local_of w 0).
Proof.
  split; [reflexivity|].
  apply (close_if_present_close_failure_keeps_binding
           (failing_close_engine (DriverError 2)) 0
           (snd (open (failing_close_engine (DriverError 2)) 0 initial_world))
           0 (DriverError 2)); [reflexivity | reflexivity | discriminate].
Defined.

(** C5, as the code has it. With no binding, [close_if_present] returns
    normally and changes nothing. With a binding whose [close()] returns
    normally, it calls [close()] on the bound connection and removes both
    attributes. In both cases a second consecutive call returns normally
    and changes nothing more: two calls leave what one call leaves. *)
Theorem close_if_present_idempotent
    (engine : Engine) (tid : ThreadId) (w : World) :
  close_returns engine tid w = true ->
  match connection (local_of w tid) with
  | None => close_if_present engine tid w = (Return tt, w)
  | Some c =>
      close_if_present engine tid w = (Return tt, closed tid c w) /\
      local_of (closed tid c w) tid = empty_local /\
      calls (closed tid c w) = calls w ++ [EvClose c]
  end /\
  close_if_present engine tid (snd (close_if_present engine tid w)) =
    (Return tt, snd (close_if_present engine tid w)).
Proof.
  unfold close_returns. intros Hret.
  destruct (connection (local_of w tid)) as [c|] eqn:Hc.
  - destruct (close_raises engine c (calls w)) as [e|] eqn:He; [discriminate|].
    rewrite (close_if_present_bound engine tid w c Hc He); simpl.
    assert (Hl : local_of (closed tid c w) tid = empty_local)
      by apply local_of_set_local_eq.
    repeat split; auto.
    apply close_if_present_unbound. by rewrite Hl.
  - rewrite (close_if_present_unbound engine tid w Hc); simpl.
    split; [reflexivity|]. by apply close_if_present_unbound.
Qed.

Lemma close_if_present_idempotent_witness :
  let w := snd (open reliable_engine 0 initial_world) in
  close_returns reliable_engine 0 w = true /\
  (close_if_present reliable_engine 0 w = (Return tt, closed 0 0 w) /\
   local_of (closed 0 0 w) 0 = empty_local /\
   calls (closed 0 0 w) = calls w ++ [EvClose 0]) /\
  close_if_present reliable_engine 0 (snd (close_if_present reliable_engine 0 w)) =
    (Return tt, snd (close_if_present reliable_engine 0 w)).
Proof.
  split; [reflexivity|].
  apply (close_if_present_idempotent reliable_engine 0
           (snd (open reliable_engine 0 initial_world))).
  reflexivity.
Defined.

(** C5 as stated fails when [close()] raises. With an engine whose first
    [close()] raises, the first [close_if_present] on a bound thread
    raises and leaves the binding in place, and the second one removes
    it: a binding was present and was not removed, and two consecutive
    calls do not leave what one call leaves. *)
Lemma close_if_present_not_idempotent_when_close_raises :
  let w := snd (open close_fails_once_engine 0 initial_world) in
  let once := close_if_present close_fails_once_engine 0 w in
  let twice := close_if_present close_fails_once_engine 0 (snd once) in
  connection (local_of w 0) = Some 0 /\
  fst once = Raise (DriverError 2) /\
  connection (local_of (snd once) 0) = Some 0 /\
  fst twice = Return tt /\
  connection (local_of (snd twice) 0) = None.
Proof. repeat split. Qed.

(** ** [transaction_commit] *)

Lemma commit_step_calls (engine : Engine) (request : Request)
    (response : Response) (w : World) :
  calls (snd (commit_step engine request response w)) =
    calls w ++ match tx request with
               | Some t => if (status_code response <? 400)%Z
                           then [EvCommit t] else []
               | None => []
               end.
Proof.
  unfold commit_step.
  destruct (tx request) as [t|]; simpl.
  - destruct (status_code response <? 400)%Z; simpl.
    + unfold transaction_do_commit, driver_call.
      by destruct (commit_raises engine t (calls w)).
    + by rewrite app_nil_r.
  - by rewrite app_nil_r.
Qed.

(** C1, as the code has it. [close_if_present] always runs, on the world
    the commit step left, whether that step made the commit, skipped it
    or raised: a connection bound on entry gets its [close()] call as the
    last driver call of the hook, and is unbound if that call returns
    normally. What leaves the hook is decided after the release: the
    exception of [close_if_present] if it raised one, otherwise the
    exception of the commit if it raised one, otherwise the response. *)
Theorem transaction_commit_always_releases
    (engine : Engine) (tid : ThreadId) (request : Request)
    (response : Response) (w : World) :
  let body := commit_step engine request response w in
  let release := close_if_present engine tid (snd body) in
  let hook := transaction_commit engine tid request response w in
  snd hook = snd release /\
  fst hook = match fst release, fst body with
             | Raise e, _ => Raise e
             | Return _, Raise e => Raise e
             | Return _, Return _ => Return response
             end /\
  match connection (local_of w tid) with
  | Some c =>
      calls (snd hook) = calls (snd body) ++ [EvClose c] /\
      (close_returns engine tid (snd body) = true ->
       fst release = Return tt /\ local_of (snd hook) tid = empty_local)
  | None => snd hook = snd body /\ fst release = Return tt
  end.
Proof.
  intros body release hook. subst body release hook.
  rewrite transaction_commit_unfold.
  pose proof (commit_step_world engine request response w) as [Hs _].
  destruct (commit_step engine request response w) as [r1 w1] eqn:Hbody.
  simpl in Hs |- *.
  assert (Hl : local_of w1 tid = local_of w tid)
    by (unfold local_of; by rewrite Hs).
  unfold close_returns. rewrite Hl.
  destruct (connection (local_of w tid)) as [c|] eqn:Hc; rewrite <- Hl in Hc.
  - destruct (close_raises engine c (calls w1)) as [e|] eqn:He.
    + rewrite (close_if_present_close_raises engine tid w1 c e Hc He); simpl.
      repeat split; auto; discriminate.
    + rewrite (close_if_present_bound engine tid w1 c Hc He); simpl.
      repeat split; auto. apply local_of_set_local_eq.
  - rewrite (close_if_present_unbound engine tid w1 Hc); simpl. auto.
Qed.

(** C1 as stated fails when the release itself raises. The database has
    gone away: the commit raises [DriverError 1], then [close()] raises
    [DriverError 2]. The exception that leaves the hook is the one of
    [close()], not the commit's, and the connection is still bound. *)
Lemma transaction_commit_release_error_replaces_commit_error :
  let w := snd (transaction_start lost_database_engine 0 (mkRequest None)
                  initial_world) in
  let request := mkRequest (Some (mkTransaction 0)) in
  let response := mkResponse 200 in
  fst (transaction_start lost_database_engine 0 (mkRequest None) initial_world)
    = Return request /\
  fst (commit_step lost_database_engine request response w)
    = Raise (DriverError 1) /\
  fst (transaction_commit lost_database_engine 0 request response w)
    = Raise (DriverError 2) /\
  connection
    (local_of (snd (transaction_commit lost_database_engine 0 request response w)) 0)
    = Some 0.
Proof. repeat split. Qed.

Lemma transaction_commit_calls (engine : Engine) (tid : ThreadId)
    (request : Request) (response : Response) (w : World) :
  calls (snd (transaction_commit engine tid request response w)) =
    calls w ++
    (match tx request with
     | Some t => if (status_code response <? 400)%Z then [EvCommit t] else []
     | None => []
     end ++
     match connection (local_of w tid) with
     | Some c => [EvClose c]
     | None => []
     end).
Proof.
  rewrite transaction_commit_unfold.
  pose proof (commit_step_world engine request response w) as [Hs _].
  pose proof (commit_step_calls engine request response w) as Hc1.
  destruct (commit_step engine request response w) as [r1 w1]; simpl in *.
  pose proof (close_if_present_calls engine tid w1) as Hc2.
  destruct (close_if_present engine tid w1) as [r2 w2]; simpl in *.
  assert (Hl : local_of w1 tid = local_of w tid)
    by (unfold local_of; by rewrite Hs).
  rewrite Hc2, Hc1, Hl. by rewrite <- app_assoc.
Qed.

(** C4. Among the driver calls the hook makes there is a commit exactly
    when [request.tx] is present and the status is below 400, and then
    there is one, on that handle; there is never a rollback. With a
    status of 400 or more the hook is [close_if_present] and nothing
    else: the only call it can make is the [close()] of the bound
    connection, and it leaves the world [close_if_present] leaves. *)
Theorem transaction_commit_commits_iff_success
    (engine : Engine) (tid : ThreadId) (request : Request)
    (response : Response) (w : World) :
  let hook := transaction_commit engine tid request response w in
  calls (snd hook) = calls w ++ new_calls w (snd hook) /\
  commit_calls (new_calls w (snd hook)) =
    match tx request with
    | Some t => if (status_code response <? 400)%Z then [t] else []
    | None => []
    end /\
  rollback_calls (new_calls w (snd hook)) = [] /\
  ((400 <= status_code response)%Z ->
   new_calls w (snd hook) = match connection (local_of w tid) with
                            | Some c => [EvClose c]
                            | None => []
                            end /\
   snd hook = snd (close_if_present engine tid w) /\
   fst hook = match fst (close_if_present engine tid w) with
              | Return _ => Return response
              | Raise e => Raise e
              end).
Proof.
  intros hook. subst hook.
  assert (Hnew : new_calls w (snd (transaction_commit engine tid request response w)) =
                 match tx request with
                 | Some t => if (status_code response <? 400)%Z
                             then [EvCommit t] else []
                 | None => []
                 end ++
                 match connection (local_of w tid) with
                 | Some c => [EvClose c]
                 | None => []
                 end).
  { unfold new_calls. rewrite transaction_commit_calls. apply drop_app_length. }
  rewrite Hnew. split; [apply transaction_commit_calls|].
  unfold commit_calls, rollback_calls. rewrite !flat_map_app.
  split; [|split].
  - destruct (tx request) as [t|], (connection (local_of w tid)) as [c|];
      try destruct (status_code response <? 400)%Z; reflexivity.
  - destruct (tx request) as [t|], (connection (local_of w tid)) as [c|];
      try destruct (status_code response <? 400)%Z; reflexivity.
  - intros Hfail.
    assert (Hlt : (status_code response <? 400)%Z = false) by lia.
    rewrite Hlt.
    split; [by destruct (tx request)|].
    rewrite transaction_commit_unfold.
    rewrite commit_step_skipped by (rewrite Hlt; apply andb_false_r).
    destruct (close_if_present engine tid w) as [[[]|e] w2]; auto.
Qed.

(** ** [open] *)

(** C2, as the code has it. [open] raises [AssertionError], and changes
    nothing, whenever the calling thread has a binding. After a
    [close_if_present] whose [close()] returned normally (or that found
    nothing to close), the thread has no binding, and [open] then
    succeeds whenever [engine.connect()] returns: it makes one [connect]
    call, stores the new connection and the session bound to it in the
    thread's namespace and returns that connection; a second [open]
    without a release in between raises [AssertionError]. *)
Theorem open_after_close_if_present
    (engine : Engine) (tid : ThreadId) (w : World) :
  close_returns engine tid w = true ->
  connect_returns engine (snd (close_if_present engine tid w)) = true ->
  let released := snd (close_if_present engine tid w) in
  let acquired := open engine tid released in
  (forall w0 c, connection (local_of w0 tid) = Some c ->
                open engine tid w0 = (Raise AssertionError, w0)) /\
  fst acquired = Return (created released) /\
  local_of (snd acquired) tid =
    mkLocal (Some (created released)) (Some (mkSession (created released))) /\
  calls (snd acquired) = calls released ++ [EvConnect] /\
  created (snd acquired) = S (created released) /\
  open engine tid (snd acquired) = (Raise AssertionError, snd acquired).
Proof.
  unfold close_returns, connect_returns. intros Hclose Hconnect. cbv zeta.
  split; [intros w0 c Hc; by apply (open_bound engine tid w0 c)|].
  assert (Hfree : connection
                    (local_of (snd (close_if_present engine tid w)) tid) = None).
  { destruct (connection (local_of w tid)) as [c|] eqn:Hc.
    - destruct (close_raises engine c (calls w)) as [e|] eqn:He; [discriminate|].
      rewrite (close_if_present_bound engine tid w c Hc He); simpl.
      unfold closed. by rewrite local_of_set_local_eq.
    - by rewrite (close_if_present_unbound engine tid w Hc). }
  destruct (connect_raises engine (calls (snd (close_if_present engine tid w))))
    as [e|] eqn:He; [discriminate|].
  rewrite (open_unbound engine tid _ Hfree He); simpl.
  assert (Hl : local_of (opened tid (snd (close_if_present engine tid w))) tid =
               mkLocal (Some (created (snd (close_if_present engine tid w))))
                 (Some (mkSession (created (snd (close_if_present engine tid w))))))
    by apply local_of_set_local_eq.
  repeat split; auto.
  apply (open_bound engine tid _ (created (snd (close_if_present engine tid w)))).
  by rewrite Hl.
Qed.

Lemma open_after_close_if_present_witness :
  let w := snd (open reliable_engine 0 initial_world) in
  let released := snd (close_if_present reliable_engine 0 w) in
  let acquired := open reliable_engine 0 released in
  close_returns reliable_engine 0 w = true /\
  connect_returns reliable_engine released = true /\
  (forall w0 c, connection (local_of w0 0) = Some c ->
                open reliable_engine 0 w0 = (Raise AssertionError, w0)) /\
  fst acquired = Return 1 /\
  local_of (snd acquired) 0 = mkLocal (Some 1) (Some (mkSession 1)) /\
  calls (snd acquired) = [EvConnect; EvClose 0; EvConnect] /\
  created (snd acquired) = 2 /\
  open reliable_engine 0 (snd acquired) = (Raise AssertionError, snd acquired).
Proof.
  split; [reflexivity|]. split; [reflexivity|].
  apply (open_after_close_if_present reliable_engine 0
           (snd (open reliable_engine 0 initial_world))); reflexivity.
Defined.

(** C2 as stated fails in two ways. When the engine has no connection to
    give, an [open] that follows a release raises the driver's
    exception. When [close()] raises [AttributeError], [close_if_present]
    swallows it and returns normally with the binding still in place, and
    the [open] that follows raises [AssertionError]. *)
Lemma open_after_close_if_present_can_fail :
  let w1 := snd (open single_connection_engine 0 initial_world) in
  let w2 := snd (close_if_present single_connection_engine 0 w1) in
  let v1 := snd (open (failing_close_engine AttributeError) 0 initial_world) in
  let v2 := snd (close_if_present (failing_close_engine AttributeError) 0 v1) in
  (fst (open single_connection_engine 0 initial_world) = Return 0 /\
   fst (close_if_present single_connection_engine 0 w1) = Return tt /\
   connection (local_of w2 0) = None /\
   fst (open single_connection_engine 0 w2) = Raise (DriverError 3)) /\
  (fst (open (failing_close_engine AttributeError) 0 initial_world) = Return 0 /\
   fst (close_if_present (failing_close_engine AttributeError) 0 v1) = Return tt /\
   connection (local_of v2 0) = Some 0 /\
   fst (open (failing_close_engine AttributeError) 0 v2) = Raise AssertionError).
Proof. repeat split. Qed.

(** ** [__call__] and [provide_session] *)

(** C3. In every world reached from the initial one by calls of the
    provider's methods and of the hooks, from any threads: when the
    calling thread has no binding, [__call__] and [provide_session] both
    raise [Exception("No connection available")]; when it has one, they
    return the bound connection and the session bound to it. In both
    cases the world is left as it was, so no binding is created. *)
Theorem call_and_provide_session_need_binding
    (engine : Engine) (ops : list (ThreadId * Op)) (tid : ThreadId) :
  let w := run_ops engine ops initial_world in
  match connection (local_of w tid) with
  | None =>
      call tid w = (Raise (Exception "No connection available"), w) /\
      provide_session tid w = (Raise (Exception "No connection available"), w)
  | Some c =>
      call tid w = (Return c, w) /\
      provide_session tid w = (Return (mkSession c), w) /\
      session (local_of w tid) = Some (mkSession c)
  end.
Proof.
  intros w.
  destruct (reachable_inv engine ops initial_world initial_inv) as (Hinv & _).
  fold w in Hinv. specialize (Hinv tid).
  destruct (bound_ok_both _ Hinv) as [[Hc Hs] | (c & Hc & Hs)]; rewrite Hc.
  - split; [by apply call_unbound | by apply provide_session_unbound].
  - split; [by apply call_bound|].
    split; [by apply (provide_session_bound tid w c)|exact Hs].
Qed.

(** ** Threads *)

(** C8. Threads run the provider's methods and the hooks in any
    interleaving. In every world so reached, if threads [tidA] and
    [tidB] are distinct and both have a binding, [__call__] on [tidA]
    returns the connection bound by [tidA], and that connection is not
    the one bound by [tidB]. *)
Theorem call_never_returns_other_threads_connection
    (engine : Engine) (ops : list (ThreadId * Op))
    (tidA tidB : ThreadId) (a b : Connection) :
  tidA <> tidB ->
  connection (local_of (run_ops engine ops initial_world) tidA) = Some a ->
  connection (local_of (run_ops engine ops initial_world) tidB) = Some b ->
  call tidA (run_ops engine ops initial_world) =
    (Return a, run_ops engine ops initial_world) /\
  a <> b.
Proof.
  intros Hne Ha Hb.
  destruct (reachable_inv engine ops initial_world initial_inv) as (_ & _ & Hpriv).
  split; [by apply call_bound|].
  intros ->. apply Hne. by apply (Hpriv tidA tidB b).
Qed.

Lemma call_never_returns_other_threads_connection_witness :
  let w := run_ops reliable_engine [(0, OpOpen); (1, OpOpen)] initial_world in
  0 <> 1 /\
  connection (local_of w 0) = Some 0 /\
  connection (local_of w 1) = Some 1 /\
  call 0 w = (Return 0, w) /\
  0 <> 1.
Proof.
  split; [discriminate|]. split; [reflexivity|]. split; [reflexivity|].
  apply (call_never_returns_other_threads_connection reliable_engine
           [(0, OpOpen); (1, OpOpen)] 0 1 0 1);
    [discriminate | reflexivity | reflexivity].
Defined.

(** C9. Every method of the provider, and each hook, run by any thread,
    keeps the invariant of the namespaces: in every thread's namespace
    the connection attribute is present exactly when the session
    attribute is, and when both are present the session is the one
    [open] made for that connection, [Session(bind=connection)]. *)
Theorem provider_operations_keep_storage_inv
    (engine : Engine) (tid : ThreadId) (op : Op) (w : World) :
  storage_inv w ->
  storage_inv (step engine w (tid, op)) /\
  forall t,
    (is_Some (connection (local_of (step engine w (tid, op)) t)) <->
     is_Some (session (local_of (step engine w (tid, op)) t))) /\
    (forall c s,
       connection (local_of (step engine w (tid, op)) t) = Some c ->
       session (local_of (step engine w (tid, op)) t) = Some s ->
       s = mkSession c).
Proof.
  intros Hinv.
  assert (Hinv' : storage_inv (step engine w (tid, op)))
    by (apply (storage_inv_effect tid w); [apply step_effect | exact Hinv]).
  split; [exact Hinv'|].
  intros t. specialize (Hinv' t).
  destruct (bound_ok_both _ Hinv') as [[Hc Hs] | (c & Hc & Hs)]; rewrite Hc, Hs.
  - split; [|discriminate]. split; intros [x Hx]; discriminate.
  - split; [split; eauto|]. by intros c' s' [= <-] [= <-].
Qed.

Lemma provider_operations_keep_storage_inv_witness :
  storage_inv initial_world /\
  storage_inv (step reliable_engine initial_world (0, OpOpen)) /\
  forall t,
    (is_Some (connection (local_of (step reliable_engine initial_world (0, OpOpen)) t)) <->
     is_Some (session (local_of (step reliable_engine initial_world (0, OpOpen)) t))) /\
    (forall c s,
       connection (local_of (step reliable_engine initial_world (0, OpOpen)) t) = Some c ->
       session (local_of (step reliable_engine initial_world (0, OpOpen)) t) = Some s ->
       s = mkSession c).
Proof.
  split; [intros t; reflexivity|].
  apply (provider_operations_keep_storage_inv reliable_engine 0 OpOpen initial_world).
  intros t; reflexivity.
Defined.

(** ** The registry *)

Lemma transaction_start_returns (engine : Engine) (tid : ThreadId)
    (request request' : Request) (w w' : World) :
  transaction_start engine tid request w = (Return request', w') ->
  connection (local_of w tid) = None /\
  w' = record_call (EvBegin (created w)) (opened tid w) /\
  request' = mkRequest (Some (mkTransaction (created w))).
Proof.
  unfold transaction_start, bind_M. intros Hstart.
  destruct (connection (local_of w tid)) as [c|] eqn:Hc.
  - rewrite (open_bound engine tid w c Hc) in Hstart. discriminate.
  - destruct (connect_raises engine (calls w)) as [e|] eqn:He.
    + rewrite (open_connect_raises engine tid w e Hc He) in Hstart. discriminate.
    + rewrite (open_unbound engine tid w Hc He) in Hstart.
      unfold connection_begin, bind_M, driver_call, ret in Hstart.
      destruct (begin_raises engine (created w) (calls (opened tid w)));
        [discriminate|].
      by injection Hstart as <- <-.
Qed.

Lemma transaction_commit_created (engine : Engine) (tid : ThreadId)
    (request : Request) (response : Response) (w : World) :
  created (snd (transaction_commit engine tid request response w)) = created w.
Proof.
  rewrite transaction_commit_unfold.
  pose proof (commit_step_world engine request response w) as [_ Hn].
  destruct (commit_step engine request response w) as [r1 w1]; simpl in *.
  pose proof (close_if_present_created engine tid w1) as Hn2.
  destruct (close_if_present engine tid w1) as [r2 w2]; simpl in *.
  congruence.
Qed.

Lemma resolve_connection (tid : ThreadId) (w : World) :
  resolve "Connection" (configure di_config) tid w =
    (c <- call tid ;; ret (VConnection c)) w.
Proof. reflexivity. Qed.

(** C6. Resolving the [Connection] capability of the configured registry
    runs the provider's [__call__] at that moment, in the world as it
    then is. So over two units of work run one after the other on a
    thread, each opened by [transaction_start], the first resolution
    returns the connection bound by the first unit, the second returns
    the connection bound by the second, and the two differ. *)
Theorem resolve_connection_follows_current_binding
    (engine : Engine) (tid : ThreadId)
    (request1 request2 started1 started2 : Request) (response : Response)
    (outcome : Result Response) (w w1 w2 w3 : World) :
  transaction_start engine tid request1 w = (Return started1, w1) ->
  transaction_commit engine tid started1 response w1 = (outcome, w2) ->
  transaction_start engine tid request2 w2 = (Return started2, w3) ->
  (forall t v, resolve "Connection" (configure di_config) t v =
               (c <- call t ;; ret (VConnection c)) v) /\
  connection (local_of w1 tid) = Some (created w) /\
  resolve "Connection" (configure di_config) tid w1 =
    (Return (VConnection (created w)), w1) /\
  connection (local_of w3 tid) = Some (created w2) /\
  resolve "Connection" (configure di_config) tid w3 =
    (Return (VConnection (created w2)), w3) /\
  created w <> created w2.
Proof.
  intros Hs1 Hc Hs2.
  destruct (transaction_start_returns _ _ _ _ _ _ Hs1) as (_ & -> & _).
  destruct (transaction_start_returns _ _ _ _ _ _ Hs2) as (_ & -> & _).
  pose proof (transaction_commit_created engine tid started1 response
                (record_call (EvBegin (created w)) (opened tid w))) as Hn.
  rewrite Hc in Hn. simpl in Hn.
  assert (Hbound : forall v, connection
            (local_of (record_call (EvBegin (created v)) (opened tid v)) tid)
            = Some (created v)).
  { intros v. rewrite local_of_record_call. unfold opened.
    by rewrite local_of_set_local_eq. }
  split; [intros t v; apply resolve_connection|].
  split; [apply Hbound|].
  split; [rewrite resolve_connection; unfold bind_M;
          by rewrite (call_bound tid _ _ (Hbound w))|].
  split; [apply Hbound|].
  split; [rewrite resolve_connection; unfold bind_M;
          by rewrite (call_bound tid _ _ (Hbound w2))|].
  lia.
Qed.

Lemma resolve_connection_follows_current_binding_witness :
  let request := mkRequest None in
  let response := mkResponse 200 in
  let started1 := mkRequest (Some (mkTransaction 0)) in
  let started2 := mkRequest (Some (mkTransaction 1)) in
  let w1 := snd (transaction_start reliable_engine 0 request initial_world) in
  let w2 := snd (transaction_commit reliable_engine 0 started1 response w1) in
  let w3 := snd (transaction_start reliable_engine 0 request w2) in
  transaction_start reliable_engine 0 request initial_world = (Return started1, w1) /\
  transaction_commit reliable_engine 0 started1 response w1 = (Return response, w2) /\
  transaction_start reliable_engine 0 request w2 = (Return started2, w3) /\
  (forall t v, resolve "Connection" (configure di_config) t v =
               (c <- call t ;; ret (VConnection c)) v) /\
  connection (local_of w1 0) = Some 0 /\
  resolve "Connection" (configure di_config) 0 w1 = (Return (VConnection 0), w1) /\
  connection (local_of w3 0) = Some 1 /\
  resolve "Connection" (configure di_config) 0 w3 = (Return (VConnection 1), w3) /\
  0 <> 1.
Proof.
  split; [reflexivity|]. split; [reflexivity|]. split; [reflexivity|].
  apply (resolve_connection_follows_current_binding reliable_engine 0
           (mkRequest None) (mkRequest None)
           (mkRequest (Some (mkTransaction 0)))
           (mkRequest (Some (mkTransaction 1)))
           (mkResponse 200) (Return (mkResponse 200)) initial_world
           (snd (transaction_start reliable_engine 0 (mkRequest None) initial_world))
           (snd (transaction_commit reliable_engine 0
                   (mkRequest (Some (mkTransaction 0))) (mkResponse 200)
                   (snd (transaction_start reliable_engine 0 (mkRequest None)
                           initial_world))))
           (snd (transaction_start reliable_engine 0 (mkRequest None)
                   (snd (transaction_commit reliable_engine 0
                           (mkRequest (Some (mkTransaction 0))) (mkResponse 200)
                           (snd (transaction_start reliable_engine 0 (mkRequest None)
                                   initial_world)))))));
    reflexivity.
Defined.

Lemma register_all_lookup (registrations : list (string * Entry))
    (registry : gmap string Entry) (capabilityId : string) :
  register_all registrations registry !! capabilityId =
    match last_registered capabilityId registrations with
    | Some entry => Some entry
    | None => registry !! capabilityId
    end.
Proof.
  revert registry. induction registrations as [|[k e] rest IH]; intros registry.
  - reflexivity.
  - simpl. rewrite IH. destruct (last_registered capabilityId rest); [done|].
    unfold register. destruct (decide (k = capabilityId)) as [->|Hne].
    + by rewrite lookup_insert_eq.
    + by rewrite lookup_insert_ne.
Qed.

(** C7. [register] is a total function on registries: it inserts the
    entry, or overwrites the one already there, and has no failure. After
    any sequence of registrations, resolving a capability gives what its
    last registration in the sequence stored (for a capability the
    sequence does not register, what the registry gave before); in
    particular, of two registrations of one capability the second is the
    one that resolves. *)
Theorem register_last_registration_wins
    (registrations : list (string * Entry)) (registry : gmap string Entry)
    (capabilityId : string) (tid : ThreadId) :
  resolve capabilityId (register_all registrations registry) tid =
    match last_registered capabilityId registrations with
    | Some entry => entry_value entry tid
    | None => resolve capabilityId registry tid
    end /\
  (forall entry,
     resolve capabilityId
       (register_all (registrations ++ [(capabilityId, entry)]) registry) tid =
     entry_value entry tid) /\
  (forall first second,
     resolve capabilityId
       (register capabilityId second (register capabilityId first registry)) tid =
     entry_value second tid).
Proof.
  split; [|split].
  - unfold resolve. rewrite register_all_lookup.
    by destruct (last_registered capabilityId registrations) as [[v|f]|].
  - intros entry. unfold resolve, register_all. rewrite fold_left_app; simpl.
    unfold register. rewrite lookup_insert_eq. by destruct entry.
  - intros first second. unfold resolve, register.
    rewrite lookup_insert_eq. by destruct second.
Qed.

(** * Further properties of the provider and the hooks *)

(** ** What a call adds to the driver's call list *)

Lemma open_calls (engine : Engine) (tid : ThreadId) (w : World) :
  calls (snd (open engine tid w)) = calls w ++ step_calls engine w tid OpOpen.
Proof.
  unfold step_calls.
  destruct (connection (local_of w tid)) as [c|] eqn:Hc.
  - rewrite (open_bound engine tid w c Hc); simpl. by rewrite app_nil_r.
  - destruct (connect_raises engine (calls w)) as [e|] eqn:He.
    + by rewrite (open_connect_raises engine tid w e Hc He).
    + by rewrite (open_unbound engine tid w Hc He).
Qed.

Lemma transaction_start_calls (engine : Engine) (tid : ThreadId)
    (request : Request) (w : World) :
  calls (snd (transaction_start engine tid request w)) =
    calls w ++ step_calls engine w tid (OpTransactionStart request).
Proof.
  unfold step_calls, transaction_start, bind_M.
  destruct (connection (local_of w tid)) as [c|] eqn:Hc.
  - rewrite (open_bound engine tid w c Hc); simpl. by rewrite app_nil_r.
  - destruct (connect_raises engine (calls w)) as [e|] eqn:He.
    + by rewrite (open_connect_raises engine tid w e Hc He).
    + rewrite (open_unbound engine tid w Hc He).
      unfold connection_begin, bind_M, driver_call, ret.
      destruct (begin_raises engine (created w) (calls (opened tid w)));
        simpl; by rewrite <- app_assoc.
Qed.

Lemma step_calls_spec (engine : Engine) (w : World) (tid : ThreadId) (op : Op) :
  calls (step engine w (tid, op)) = calls w ++ step_calls engine w tid op.
Proof.
  destruct op; simpl step.
  - rewrite call_world. simpl. by rewrite app_nil_r.
  - rewrite provide_session_world. simpl. by rewrite app_nil_r.
  - simpl. by rewrite app_nil_r.
  - apply open_calls.
  - apply close_if_present_calls.
  - apply transaction_start_calls.
  - apply transaction_commit_calls.
Qed.

Lemma step_calls_close (engine : Engine) (w : World) (tid : ThreadId) (op : Op)
    (c : Connection) :
  In (EvClose c) (step_calls engine w tid op) ->
  connection (local_of w tid) = Some c.
Proof.
  unfold step_calls.
  destruct op; simpl;
    destruct (connection (local_of w tid)) as [c'|]; simpl;
    try (destruct (connect_raises engine (calls w)); simpl);
    try (destruct (tx request) as [t|]; simpl);
    try (destruct (status_code response <? 400)%Z; simpl);
    intros Hin; repeat (destruct Hin as [Hin|Hin]; try discriminate);
    try done; by injection Hin as ->.
Qed.

Lemma rollback_calls_app (l1 l2 : list Event) :
  rollback_calls (l1 ++ l2) = rollback_calls l1 ++ rollback_calls l2.
Proof. apply flat_map_app. Qed.

Lemma step_calls_no_rollback (engine : Engine) (w : World) (tid : ThreadId)
    (op : Op) :
  rollback_calls (step_calls engine w tid op) = [].
Proof.
  unfold step_calls.
  destruct op; simpl;
    destruct (connection (local_of w tid)) as [c'|]; simpl;
    try (destruct (connect_raises engine (calls w)); simpl);
    try (destruct (tx request) as [t|]; simpl);
    try (destruct (status_code response <? 400)%Z; simpl);
    reflexivity.
Qed.

(** X5. Whatever sequence of methods and hooks the threads run, and
    whatever the driver does, no rollback is ever called on a
    transaction. *)
Theorem no_run_ever_calls_rollback
    (engine : Engine) (ops : list (ThreadId * Op)) :
  rollback_calls (calls (run_ops engine ops initial_world)) = [].
Proof.
  assert (Hgen : forall w, rollback_calls (calls w) = [] ->
                           rollback_calls (calls (run_ops engine ops w)) = []).
  { induction ops as [|[tid op] ops IH]; intros w Hw; [exact Hw|].
    change (run_ops engine ((tid, op) :: ops) w)
      with (run_ops engine ops (step engine w (tid, op))).
    apply IH.
    rewrite step_calls_spec, rollback_calls_app, Hw, step_calls_no_rollback.
    reflexivity. }
  by apply Hgen.
Qed.

(** ** Connections are not lost *)

Lemma step_unbinds_after_close (engine : Engine) (w : World) (tid : ThreadId)
    (op : Op) (c : Connection) :
  connection (local_of w tid) = Some c ->
  connection (local_of (step engine w (tid, op)) tid) <> Some c ->
  In (EvClose c) (calls (step engine w (tid, op))).
Proof.
  intros Hc Hgone.
  assert (Hsame : forall w', storage w' = storage w ->
                             connection (local_of w' tid) = Some c)
    by (intros w' Hs; unfold local_of in *; by rewrite Hs).
  rewrite step_calls_spec. apply in_or_app. right.
  destruct op; simpl in Hgone.
  - rewrite call_world in Hgone. done.
  - rewrite provide_session_world in Hgone. done.
  - done.
  - rewrite (open_bound engine tid w c Hc) in Hgone. done.
  - unfold step_calls. rewrite Hc. by left.
  - unfold transaction_start, bind_M in Hgone.
    rewrite (open_bound engine tid w c Hc) in Hgone. done.
  - unfold step_calls. rewrite Hc. apply in_or_app. right. by left.
Qed.

Lemma accounted_inv_step (engine : Engine) (w : World) (tid : ThreadId) (op : Op) :
  accounted_inv w -> accounted_inv (step engine w (tid, op)).
Proof.
  intros Hinv c Hlt.
  pose proof (step_effect engine w tid op) as Heff.
  destruct (effect_local tid w _ Heff) as (Hother & _ & _ & Hnew).
  pose proof (step_calls_spec engine w tid op) as Hcalls.
  assert (Hold : c < created w ->
          (exists t, connection (local_of (step engine w (tid, op)) t) = Some c) \/
          In (EvClose c) (calls (step engine w (tid, op)))).
  { intros Hc. destruct (Hinv c Hc) as [[t Ht] | Hin].
    - destruct (decide (t = tid)) as [->|Hne].
      + destruct (decide (connection (local_of (step engine w (tid, op)) tid)
                          = Some c)) as [Hstill|Hgone].
        * left. by exists tid.
        * right. by apply step_unbinds_after_close.
      + left. exists t. by rewrite (Hother t Hne).
    - right. rewrite Hcalls. apply in_or_app. by left. }
  destruct Heff as [Hs Hn|Hs Hn|Hfree Hs Hn].
  - apply Hold. lia.
  - apply Hold. lia.
  - destruct (decide (c = created w)) as [->|Hne].
    + left. exists tid. unfold local_of. rewrite Hs, lookup_insert_eq. done.
    + apply Hold. lia.
Qed.

(** X6. In every world the threads can reach, each connection the engine
    has handed out is either still bound by a thread or has had
    [close()] called on it: the provider never drops a connection it has
    not tried to close. *)
Theorem every_connection_is_bound_or_closed
    (engine : Engine) (ops : list (ThreadId * Op)) (c : Connection) :
  c < created (run_ops engine ops initial_world) ->
  (exists tid,
     connection (local_of (run_ops engine ops initial_world) tid) = Some c) \/
  In (EvClose c) (calls (run_ops engine ops initial_world)).
Proof.
  assert (Hgen : forall w, accounted_inv w -> accounted_inv (run_ops engine ops w)).
  { induction ops as [|[tid op] ops IH]; intros w Hw; [exact Hw|].
    change (run_ops engine ((tid, op) :: ops) w)
      with (run_ops engine ops (step engine w (tid, op))).
    apply IH. by apply accounted_inv_step. }
  apply Hgen. intros c' Hc'. simpl in Hc'. lia.
Qed.

Lemma every_connection_is_bound_or_closed_witness :
  let ops := [(0, OpOpen); (1, OpOpen); (0, OpCloseIfPresent)] in
  0 < created (run_ops reliable_engine ops initial_world) /\
  ((exists tid,
      connection (local_of (run_ops reliable_engine ops initial_world) tid) = Some 0) \/
   In (EvClose 0) (calls (run_ops reliable_engine ops initial_world))).
Proof.
  split; [vm_compute; lia|].
  apply (every_connection_is_bound_or_closed reliable_engine
           [(0, OpOpen); (1, OpOpen); (0, OpCloseIfPresent)] 0).
  vm_compute; lia.
Defined.

(** X8. A thread only ever closes its own connection. In a world the
    threads can reach, if a call by thread [tid] makes a [close()] call
    on connection [c], then [c] is the connection bound by [tid] when the
    call starts, and no other thread has it bound. *)
Theorem close_is_called_on_own_connection_only
    (engine : Engine) (ops : list (ThreadId * Op)) (tid : ThreadId) (op : Op)
    (c : Connection) :
  In (EvClose c)
     (new_calls (run_ops engine ops initial_world)
        (step engine (run_ops engine ops initial_world) (tid, op))) ->
  connection (local_of (run_ops engine ops initial_world) tid) = Some c /\
  forall t, t <> tid ->
            connection (local_of (run_ops engine ops initial_world) t) <> Some c.
Proof.
  unfold new_calls. rewrite step_calls_spec, drop_app_length. intros Hin.
  pose proof (step_calls_close engine _ tid op c Hin) as Hown.
  split; [exact Hown|].
  destruct (reachable_inv engine ops initial_world initial_inv) as (_ & _ & Hpriv).
  intros t Hne Hother. apply Hne. by apply (Hpriv t tid c).
Qed.

Lemma close_is_called_on_own_connection_only_witness :
  let w := run_ops reliable_engine [(0, OpOpen); (1, OpOpen)] initial_world in
  In (EvClose 1) (new_calls w (step reliable_engine w (1, OpCloseIfPresent))) /\
  connection (local_of w 1) = Some 1 /\
  forall t, t <> 1 -> connection (local_of w t) <> Some 1.
Proof.
  split; [vm_compute; auto|].
  apply (close_is_called_on_own_connection_only reliable_engine
           [(0, OpOpen); (1, OpOpen)] 1 OpCloseIfPresent 1).
  vm_compute; auto.
Defined.

(** ** Threads do not disturb each other *)

Lemma lookups_by_namespace (t : ThreadId) (w : World) :
  fst (call t w) =
    match connection (local_of w t) with
    | Some c => Return c
    | None => Raise (Exception "No connection available")
    end /\
  fst (connected t w) =
    Return (bool_decide (is_Some (connection (local_of w t)))) /\
  fst (provide_session t w) =
    match connection (local_of w t), session (local_of w t) with
    | None, _ => Raise (Exception "No connection available")
    | Some _, Some s => Return s
    | Some _, None => Raise AttributeError
    end.
Proof.
  unfold call, connected, provide_session, try_except_AttributeError,
    hasattr_connection, getattr_connection, getattr_session, bind_M.
  destruct (connection (local_of w t)) as [c|] eqn:Hc;
    simpl; rewrite ?Hc; simpl.
  - by destruct (session (local_of w t)).
  - done.
Qed.

Lemma lookups_read_own_namespace (t : ThreadId) (w1 w2 : World) :
  local_of w1 t = local_of w2 t ->
  fst (call t w1) = fst (call t w2) /\
  fst (connected t w1) = fst (connected t w2) /\
  fst (provide_session t w1) = fst (provide_session t w2).
Proof.
  intros Hl.
  destruct (lookups_by_namespace t w1) as (-> & -> & ->).
  destruct (lookups_by_namespace t w2) as (-> & -> & ->).
  by rewrite Hl.
Qed.

(** X7. A call made by one thread leaves every other thread's namespace
    as it was, so what [__call__], [connected] and [provide_session]
    answer on another thread is the same before and after. *)
Theorem step_leaves_other_threads_alone
    (engine : Engine) (w : World) (tid t : ThreadId) (op : Op) :
  t <> tid ->
  local_of (step engine w (tid, op)) t = local_of w t /\
  fst (call t (step engine w (tid, op))) = fst (call t w) /\
  fst (connected t (step engine w (tid, op))) = fst (connected t w) /\
  fst (provide_session t (step engine w (tid, op))) = fst (provide_session t w).
Proof.
  intros Hne.
  pose proof (step_other_threads engine w tid t op Hne) as Hl.
  split; [exact Hl|].
  pose proof (lookups_read_own_namespace t _ _ Hl) as (H1 & H2 & H3). auto.
Qed.

Lemma step_leaves_other_threads_alone_witness :
  let w := snd (open reliable_engine 1 initial_world) in
  1 <> 0 /\
  local_of (step reliable_engine w (0, OpOpen)) 1 = local_of w 1 /\
  fst (call 1 (step reliable_engine w (0, OpOpen))) = fst (call 1 w) /\
  fst (connected 1 (step reliable_engine w (0, OpOpen))) = fst (connected 1 w) /\
  fst (provide_session 1 (step reliable_engine w (0, OpOpen))) =
    fst (provide_session 1 w).
Proof.
  split; [discriminate|].
  apply (step_leaves_other_threads_alone reliable_engine
           (snd (open reliable_engine 1 initial_world)) 0 1 OpOpen).
  discriminate.
Defined.

(** ** [connected] *)

(** X1. [connected] never raises and changes nothing. In every world the
    threads can reach it answers [True] exactly when [__call__] and
    [provide_session] return normally, and [False] exactly when both
    raise [Exception("No connection available")]. *)
Theorem connected_tells_whether_lookups_succeed
    (engine : Engine) (ops : list (ThreadId * Op)) (tid : ThreadId) :
  let w := run_ops engine ops initial_world in
  exists b,
    connected tid w = (Return b, w) /\
    if b
    then exists c, call tid w = (Return c, w) /\
                   provide_session tid w = (Return (mkSession c), w)
    else call tid w = (Raise (Exception "No connection available"), w) /\
         provide_session tid w = (Raise (Exception "No connection available"), w).
Proof.
  intros w.
  destruct (reachable_inv engine ops initial_world initial_inv) as (Hinv & _).
  fold w in Hinv. specialize (Hinv tid).
  unfold connected, hasattr_connection.
  destruct (bound_ok_both _ Hinv) as [[Hc Hs] | (c & Hc & Hs)]; rewrite Hc.
  - exists false. split; [reflexivity|].
    split; [by apply call_unbound | by apply provide_session_unbound].
  - exists true. split; [reflexivity|]. exists c.
    split; [by apply call_bound | by apply (provide_session_bound tid w c)].
Qed.

(** ** [transaction_start] *)

(** X2. When [begin()] raises, [transaction_start] raises that exception
    after [open] has already stored the new connection: the connection
    and its session stay bound to the thread, the calls made are the
    [connect] and the [begin], and a further [transaction_start] on the
    thread raises [AssertionError] without calling the driver. *)
Theorem transaction_start_begin_failure_keeps_connection
    (engine : Engine) (tid : ThreadId) (request again : Request) (w : World)
    (e : exn) :
  connection (local_of w tid) = None ->
  connect_returns engine w = true ->
  begin_raises engine (created w) (calls w ++ [EvConnect]) = Some e ->
  let w' := snd (transaction_start engine tid request w) in
  fst (transaction_start engine tid request w) = Raise e /\
  local_of w' tid = mkLocal (Some (created w)) (Some (mkSession (created w))) /\
  calls w' = calls w ++ [EvConnect; EvBegin (created w)] /\
  transaction_start engine tid again w' = (Raise AssertionError, w').
Proof.
  unfold connect_returns. intros Hc Hconn Hbegin.
  destruct (connect_raises engine (calls w)) as [e'|] eqn:He; [discriminate|].
  assert (Hstart : transaction_start engine tid request w =
                   (Raise e, record_call (EvBegin (created w)) (opened tid w))).
  { unfold transaction_start, bind_M.
    rewrite (open_unbound engine tid w Hc He).
    unfold connection_begin, bind_M, driver_call. simpl. by rewrite Hbegin. }
  rewrite Hstart. cbv zeta. simpl fst. simpl snd.
  assert (Hl : local_of (record_call (EvBegin (created w)) (opened tid w)) tid =
               mkLocal (Some (created w)) (Some (mkSession (created w)))).
  { rewrite local_of_record_call. apply local_of_set_local_eq. }
  split; [reflexivity|]. split; [exact Hl|].
  split; [simpl; by rewrite <- app_assoc|].
  unfold transaction_start, bind_M.
  rewrite (open_bound engine tid _ (created w)); [reflexivity|]. by rewrite Hl.
Qed.

Lemma transaction_start_begin_failure_keeps_connection_witness :
  let engine := failing_begin_engine (DriverError 4) in
  let w' := snd (transaction_start engine 0 (mkRequest None) initial_world) in
  connection (local_of initial_world 0) = None /\
  connect_returns engine initial_world = true /\
  fst (transaction_start engine 0 (mkRequest None) initial_world)
    = Raise (DriverError 4) /\
  local_of w' 0 = mkLocal (Some 0) (Some (mkSession 0)) /\
  calls w' = [EvConnect; EvBegin 0] /\
  transaction_start engine 0 (mkRequest None) w' = (Raise AssertionError, w').
Proof.
  split; [reflexivity|]. split; [reflexivity|].
  apply (transaction_start_begin_failure_keeps_connection
           (failing_begin_engine (DriverError 4)) 0 (mkRequest None) (mkRequest None)
           initial_world (DriverError 4)); reflexivity.
Defined.

(** X9. When [engine.connect()] raises, [open] and [transaction_start]
    raise that exception and bind nothing: the thread has no binding
    afterwards and no connection object was made, so the thread can try
    again, and [open] then succeeds as soon as the engine gives a
    connection. *)
Theorem connect_failure_binds_nothing
    (engine : Engine) (tid : ThreadId) (request : Request) (w : World) (e : exn) :
  connection (local_of w tid) = None ->
  connect_raises engine (calls w) = Some e ->
  let w' := record_call EvConnect w in
  open engine tid w = (Raise e, w') /\
  transaction_start engine tid request w = (Raise e, w') /\
  connection (local_of w' tid) = None /\
  created w' = created w /\
  (connect_returns engine w' = true ->
   open engine tid w' = (Return (created w), opened tid w')).
Proof.
  intros Hc He w'. subst w'.
  pose proof (open_connect_raises engine tid w e Hc He) as Hopen.
  split; [exact Hopen|].
  split; [unfold transaction_start, bind_M; by rewrite Hopen|].
  split; [exact Hc|]. split; [reflexivity|].
  unfold connect_returns. intros Hret.
  destruct (connect_raises engine (calls (record_call EvConnect w))) eqn:He';
    [discriminate|].
  apply (open_unbound engine tid (record_call EvConnect w)); [exact Hc | exact He'].
Qed.

Lemma connect_failure_binds_nothing_witness :
  let engine := failing_connect_engine (DriverError 3) in
  let w' := record_call EvConnect initial_world in
  connection (local_of initial_world 0) = None /\
  connect_raises engine (calls initial_world) = Some (DriverError 3) /\
  open engine 0 initial_world = (Raise (DriverError 3), w') /\
  transaction_start engine 0 (mkRequest None) initial_world
    = (Raise (DriverError 3), w') /\
  connection (local_of w' 0) = None /\
  created w' = created initial_world /\
  (connect_returns engine w' = true ->
   open engine 0 w' = (Return (created initial_world), opened 0 w')).
Proof.
  split; [reflexivity|]. split; [reflexivity|].
  apply (connect_failure_binds_nothing (failing_connect_engine (DriverError 3)) 0
           (mkRequest None) initial_world (DriverError 3)); reflexivity.
Defined.

(** ** A whole unit of work *)

(** X3. A unit of work that [transaction_start] opened and
    [transaction_commit] ends makes these driver calls, in this order:
    [connect], [begin] on the new connection, a [commit] of the
    transaction begun on it when the status is below 400 and none
    otherwise, and [close()] on that same connection. When [close()]
    returns normally the thread is left without a binding, and what
    leaves the hook is the response, or the commit's exception. *)
Theorem unit_of_work_commits_then_closes
    (engine : Engine) (tid : ThreadId) (request started : Request)
    (response : Response) (w w1 : World) :
  transaction_start engine tid request w = (Return started, w1) ->
  let c := created w in
  let hook := transaction_commit engine tid started response w1 in
  tx started = Some (mkTransaction c) /\
  calls (snd hook) =
    calls w ++ [EvConnect; EvBegin c] ++
    (if (status_code response <? 400)%Z then [EvCommit (mkTransaction c)] else []) ++
    [EvClose c] /\
  (close_returns engine tid (snd (commit_step engine started response w1)) = true ->
   local_of (snd hook) tid = empty_local /\
   fst hook = match fst (commit_step engine started response w1) with
              | Return _ => Return response
              | Raise e => Raise e
              end).
Proof.
  intros Hstart.
  destruct (transaction_start_returns _ _ _ _ _ _ Hstart) as (Hfree & -> & ->).
  cbv zeta. split; [reflexivity|].
  assert (Hbound : connection
            (local_of (record_call (EvBegin (created w)) (opened tid w)) tid)
            = Some (created w)).
  { rewrite local_of_record_call. unfold opened.
    by rewrite local_of_set_local_eq. }
  split.
  - rewrite transaction_commit_calls, Hbound. simpl.
    rewrite <- !app_assoc. reflexivity.
  - rewrite transaction_commit_unfold.
    pose proof (commit_step_world engine
                  (mkRequest (Some (mkTransaction (created w)))) response
                  (record_call (EvBegin (created w)) (opened tid w))) as [Hs _].
    destruct (commit_step engine (mkRequest (Some (mkTransaction (created w))))
                response (record_call (EvBegin (created w)) (opened tid w)))
      as [r1 w2]; simpl in Hs |- *.
    assert (Hbound2 : connection (local_of w2 tid) = Some (created w))
      by (unfold local_of in *; by rewrite Hs).
    unfold close_returns. rewrite Hbound2.
    destruct (close_raises engine (created w) (calls w2)) as [e|] eqn:He;
      [discriminate|]. intros _.
    rewrite (close_if_present_bound engine tid w2 _ Hbound2 He); simpl.
    split; [apply local_of_set_local_eq | by destruct r1 as [[]|e1]].
Qed.

Lemma unit_of_work_commits_then_closes_witness :
  let started := mkRequest (Some (mkTransaction 0)) in
  let response := mkResponse 201 in
  let w1 := snd (transaction_start reliable_engine 0 (mkRequest None) initial_world) in
  let hook := transaction_commit reliable_engine 0 started response w1 in
  transaction_start reliable_engine 0 (mkRequest None) initial_world
    = (Return started, w1) /\
  tx started = Some (mkTransaction 0) /\
  calls (snd hook) =
    [EvConnect; EvBegin 0; EvCommit (mkTransaction 0); EvClose 0] /\
  (close_returns reliable_engine 0
     (snd (commit_step reliable_engine started response w1)) = true ->
   local_of (snd hook) 0 = empty_local /\
   fst hook = Return response).
Proof.
  split; [reflexivity|].
  apply (unit_of_work_commits_then_closes reliable_engine 0 (mkRequest None)
           (mkRequest (Some (mkTransaction 0))) (mkResponse 201) initial_world
           (snd (transaction_start reliable_engine 0 (mkRequest None) initial_world))).
  reflexivity.
Defined.

(** X4. When the [close()] made by [transaction_commit] raises, whatever
    it raises, the connection stays bound to the thread, and the next
    [open] and the next [transaction_start] on that thread raise
    [AssertionError] and change nothing. *)
Theorem failed_close_blocks_the_thread
    (engine : Engine) (tid : ThreadId) (request next : Request)
    (response : Response) (w : World) (c : Connection) :
  connection (local_of w tid) = Some c ->
  close_returns engine tid (snd (commit_step engine request response w)) = false ->
  let w' := snd (transaction_commit engine tid request response w) in
  connection (local_of w' tid) = Some c /\
  open engine tid w' = (Raise AssertionError, w') /\
  transaction_start engine tid next w' = (Raise AssertionError, w').
Proof.
  intros Hc. rewrite transaction_commit_unfold.
  pose proof (commit_step_world engine request response w) as [Hs _].
  destruct (commit_step engine request response w) as [r1 w1]; simpl in Hs |- *.
  assert (Hc1 : connection (local_of w1 tid) = Some c)
    by (unfold local_of in *; by rewrite Hs).
  unfold close_returns. rewrite Hc1.
  destruct (close_raises engine c (calls w1)) as [e|] eqn:He; [|discriminate].
  intros _. rewrite (close_if_present_close_raises engine tid w1 c e Hc1 He).
  simpl.
  assert (Hc2 : connection (local_of (record_call (EvClose c) w1) tid) = Some c)
    by exact Hc1.
  split; [exact Hc2|].
  pose proof (open_bound engine tid _ c Hc2) as Hopen.
  split; [exact Hopen|].
  unfold transaction_start, bind_M. by rewrite Hopen.
Qed.

Lemma failed_close_blocks_the_thread_witness :
  let engine := failing_close_engine (DriverError 2) in
  let request := mkRequest (Some (mkTransaction 0)) in
  let response := mkResponse 200 in
  let w := snd (transaction_start engine 0 (mkRequest None) initial_world) in
  let w' := snd (transaction_commit engine 0 request response w) in
  connection (local_of w 0) = Some 0 /\
  close_returns engine 0 (snd (commit_step engine request response w)) = false /\
  connection (local_of w' 0) = Some 0 /\
  open engine 0 w' = (Raise AssertionError, w') /\
  transaction_start engine 0 (mkRequest None) w' = (Raise AssertionError, w').
Proof.
  split; [reflexivity|]. split; [reflexivity|].
  apply (failed_close_blocks_the_thread (failing_close_engine (DriverError 2)) 0
           (mkRequest (Some (mkTransaction 0))) (mkRequest None) (mkResponse 200)
           (snd (transaction_start (failing_close_engine (DriverError 2)) 0
                   (mkRequest None) initial_world)) 0); reflexivity.
Defined.

(** ** The bindings of [di_config] *)

Lemma resolve_session (tid : ThreadId) (w : World) :
  resolve "Session" (configure di_config) tid w =
    (s <- provide_session tid ;; ret (VSession s)) w.
Proof. reflexivity. Qed.

(** X10. The [Connection] and the [Session] capabilities bound by
    [di_config] agree. In every world the threads can reach, either both
    resolve, to the thread's connection and to the session bound to that
    same connection, or both raise
    [Exception("No connection available")]; resolving changes nothing. *)
Theorem resolved_session_is_bound_to_resolved_connection
    (engine : Engine) (ops : list (ThreadId * Op)) (tid : ThreadId) :
  let w := run_ops engine ops initial_world in
  match connection (local_of w tid) with
  | Some c =>
      resolve "Connection" (configure di_config) tid w =
        (Return (VConnection c), w) /\
      resolve "Session" (configure di_config) tid w =
        (Return (VSession (mkSession c)), w)
  | None =>
      resolve "Connection" (configure di_config) tid w =
        (Raise (Exception "No connection available"), w) /\
      resolve "Session" (configure di_config) tid w =
        (Raise (Exception "No connection available"), w)
  end.
Proof.
  intros w.
  destruct (reachable_inv engine ops initial_world initial_inv) as (Hinv & _).
  fold w in Hinv. specialize (Hinv tid).
  rewrite resolve_connection, resolve_session. unfold bind_M.
  destruct (bound_ok_both _ Hinv) as [[Hc Hs] | (c & Hc & Hs)]; rewrite Hc.
  - by rewrite (call_unbound tid w Hc), (provide_session_unbound tid w Hc).
  - by rewrite (call_bound tid w c Hc), (provide_session_bound tid w c _ Hc Hs).
Qed.

(** * [setup] and [setup_dependency_injection] *)

Lemma setup_settings_inversion (environ settings : gmap string string) :
  setup_settings environ = SetupOk settings ->
  exists payments_login payments_password email_host email_port
         email_username email_password email_from_name email_from_address,
    environ !! "PAYMENTS_LOGIN" = Some payments_login /\
    environ !! "PAYMENTS_PASSWORD" = Some payments_password /\
    environ !! "EMAIL_HOST" = Some email_host /\
    environ !! "EMAIL_PORT" = Some email_port /\
    environ !! "EMAIL_USERNAME" = Some email_username /\
    environ !! "EMAIL_PASSWORD" = Some email_password /\
    environ !! "EMAIL_FROM_NAME" = Some email_from_name /\
    environ !! "EMAIL_FROM_ADDRESS" = Some email_from_address /\
    settings =
      <["payments.login" := payments_login]>
      (<["payments.password" := payments_password]>
      (<["email.host" := email_host]>
      (<["email.port" := email_port]>
      (<["email.username" := email_username]>
      (<["email.password" := email_password]>
      (<["email.from.name" := email_from_name]>
      (<["email.from.address" := email_from_address]> ∅))))))).
Proof.
  unfold setup_settings, getitem, setup_bind.
  destruct (environ !! "PAYMENTS_LOGIN") as [v1|]; [|discriminate].
  destruct (environ !! "PAYMENTS_PASSWORD") as [v2|]; [|discriminate].
  destruct (environ !! "EMAIL_HOST") as [v3|]; [|discriminate].
  destruct (environ !! "EMAIL_PORT") as [v4|]; [|discriminate].
  destruct (environ !! "EMAIL_USERNAME") as [v5|]; [|discriminate].
  destruct (environ !! "EMAIL_PASSWORD") as [v6|]; [|discriminate].
  destruct (environ !! "EMAIL_FROM_NAME") as [v7|]; [|discriminate].
  destruct (environ !! "EMAIL_FROM_ADDRESS") as [v8|]; [|discriminate].
  intros [= <-]. by exists v1, v2, v3, v4, v5, v6, v7, v8.
Qed.



(** X12. [setup] gets its [settings] exactly when [os.environ] defines
    all eight variables. Otherwise building the dictionary raises
    [KeyError] for the first variable, in the order the source reads
    them, that is not defined; it never raises anything else. *)
Theorem setup_settings_reports_first_missing_variable
    (environ : gmap string string) :
  match first_missing environ with
  | Some name => setup_settings environ = KeyError name /\
                 In name required_variables /\ environ !! name = None
  | None => (exists settings, setup_settings environ = SetupOk settings) /\
            forall name, In name required_variables -> is_Some (environ !! name)
  end.
Proof.
  unfold first_missing, setup_settings, getitem, setup_bind, required_variables.
  simpl.
  destruct (environ !! "PAYMENTS_LOGIN") as [v1|] eqn:H1; [|simpl; auto 10].
  destruct (environ !! "PAYMENTS_PASSWORD") as [v2|] eqn:H2; [|simpl; auto 10].
  destruct (environ !! "EMAIL_HOST") as [v3|] eqn:H3; [|simpl; auto 10].
  destruct (environ !! "EMAIL_PORT") as [v4|] eqn:H4; [|simpl; auto 10].
  destruct (environ !! "EMAIL_USERNAME") as [v5|] eqn:H5; [|simpl; auto 10].
  destruct (environ !! "EMAIL_PASSWORD") as [v6|] eqn:H6; [|simpl; auto 10].
  destruct (environ !! "EMAIL_FROM_NAME") as [v7|] eqn:H7; [|simpl; auto 12].
  destruct (environ !! "EMAIL_FROM_ADDRESS") as [v8|] eqn:H8; [|simpl; auto 12].
  split; [eauto|].
  intros name Hin. simpl in Hin.
  repeat (destruct Hin as [<-|Hin]; [eauto|]). done.
Qed.

(** X13. The [settings] that [setup] builds hold every key that
    [setup_dependency_injection] reads, so it raises no [KeyError] on
    them. The payment provider gets the login and the password of the
    [PAYMENTS_] variables. The customer-relationship configuration gets
    the [EMAIL_] variables, the sender as the pair of name and address
    and the port as [int()] reads it; the one way reading the settings
    can fail is the [ValueError] of [int()] on the text of [EMAIL_PORT]. *)
Theorem setup_dependency_injection_reads_setup_settings
    (py_int : string -> option Z) (environ settings : gmap string string) :
  setup_settings environ = SetupOk settings ->
  exists payments_login payments_password email_host email_port
         email_username email_password email_from_name email_from_address,
    environ !! "PAYMENTS_LOGIN" = Some payments_login /\
    environ !! "PAYMENTS_PASSWORD" = Some payments_password /\
    environ !! "EMAIL_HOST" = Some email_host /\
    environ !! "EMAIL_PORT" = Some email_port /\
    environ !! "EMAIL_USERNAME" = Some email_username /\
    environ !! "EMAIL_PASSWORD" = Some email_password /\
    environ !! "EMAIL_FROM_NAME" = Some email_from_name /\
    environ !! "EMAIL_FROM_ADDRESS" = Some email_from_address /\
    payment_provider settings =
      SetupOk (mkCaPaymentsPaymentProvider payments_login payments_password) /\
    setup_dependency_injection py_int settings =
      match py_int email_port with
      | Some port =>
          SetupOk (mkCustomerRelationshipConfig email_host port email_username
                     email_password (email_from_name, email_from_address),
                   mkCaPaymentsPaymentProvider payments_login payments_password)
      | None => ValueError email_port
      end.
Proof.
  intros Hok.
  destruct (setup_settings_inversion environ settings Hok)
    as (v1 & v2 & v3 & v4 & v5 & v6 & v7 & v8 &
        H1 & H2 & H3 & H4 & H5 & H6 & H7 & H8 & ->).
  exists v1, v2, v3, v4, v5, v6, v7, v8.
  repeat (split; [assumption|]).
  split; [reflexivity|].
  unfold setup_dependency_injection, cr_config, payment_provider, getitem,
    setup_bind.
  change ((<["payments.login" := v1]>
           (<["payments.password" := v2]>
           (<["email.host" := v3]>
           (<["email.port" := v4]>
           (<["email.username" := v5]>
           (<["email.password" := v6]>
           (<["email.from.name" := v7]>
           (<["email.from.address" := v8]> ∅))))))) : gmap string string)
            !! "email.host") with (Some v3).
  change ((<["payments.login" := v1]>
           (<["payments.password" := v2]>
           (<["email.host" := v3]>
           (<["email.port" := v4]>
           (<["email.username" := v5]>
           (<["email.password" := v6]>
           (<["email.from.name" := v7]>
           (<["email.from.address" := v8]> ∅))))))) : gmap string string)
            !! "email.port") with (Some v4).
  cbv beta iota.
  destruct (py_int v4) as [port|]; reflexivity.
Qed.

Lemma setup_dependency_injection_reads_setup_settings_witness :
  exists settings,
    setup_settings example_environ = SetupOk settings /\
    exists payments_login payments_password email_host email_port
           email_username email_password email_from_name email_from_address,
      example_environ !! "PAYMENTS_LOGIN" = Some payments_login /\
      example_environ !! "PAYMENTS_PASSWORD" = Some payments_password /\
      example_environ !! "EMAIL_HOST" = Some email_host /\
      example_environ !! "EMAIL_PORT" = Some email_port /\
      example_environ !! "EMAIL_USERNAME" = Some email_username /\
      example_environ !! "EMAIL_PASSWORD" = Some email_password /\
      example_environ !! "EMAIL_FROM_NAME" = Some email_from_name /\
      example_environ !! "EMAIL_FROM_ADDRESS" = Some email_from_address /\
      payment_provider settings =
        SetupOk (mkCaPaymentsPaymentProvider payments_login payments_password) /\
      setup_dependency_injection example_int settings =
        match example_int email_port with
        | Some port =>
            SetupOk (mkCustomerRelationshipConfig email_host port email_username
                       email_password (email_from_name, email_from_address),
                     mkCaPaymentsPaymentProvider payments_login payments_password)
        | None => ValueError email_port
        end.
Proof.
  eexists. split; [reflexivity|].
  apply (setup_dependency_injection_reads_setup_settings example_int
           example_environ). reflexivity.
Defined.
